(** * Session claims: validation pass and access-token-payload merge

    A shallow embedding of [supertokens_python/recipe/session/session_class.py]
    (class [Session]): [update_access_token_payload], [assert_claims],
    [remove_claim] and [merge_into_access_token_payload], together with the
    Python values they manipulate (JSON-like values, insertion-ordered
    dictionaries, [json.dumps]). *)

From Stdlib Require Import List String Ascii ZArith Bool Lia.
From Stdlib Require Import DecimalString DecimalZ.
Import ListNotations.
Open Scope string_scope.

(** ** JSON-like Python values

    Payloads are [Dict[str, Any]] holding JSON-like data.  Python's [None] is
    [JNull].  Numbers are integers; floating point values are outside the
    model.  A [str] is a sequence of code points below 256. *)

#[warnings="-register-all"]
Inductive json : Type :=
| JNull
| JBool (b : bool)
| JNum (n : Z)
| JStr (s : string)
| JArr (xs : list json)
| JObj (items : list (string * json)).

(** A Python [dict] keeps its items in insertion order and its keys are
    unique ([dict_wf]). *)
Definition dict : Type := list (string * json).

Definition dict_keys (d : dict) : list string := map fst d.

Definition dict_wf (d : dict) : Prop := NoDup (dict_keys d).

(** [d.get(k)]; also the lookup underlying [d[k]]. *)
Fixpoint dict_get (k : string) (d : dict) : option json :=
  match d with
  | [] => None
  | (k', v) :: rest => if String.eqb k k' then Some v else dict_get k rest
  end.

(** [d[k] = v]: an existing key keeps its position, a new key goes last. *)
Fixpoint dict_set (k : string) (v : json) (d : dict) : dict :=
  match d with
  | [] => [(k, v)]
  | (k', v') :: rest =>
      if String.eqb k k' then (k', v) :: rest else (k', v') :: dict_set k v rest
  end.

(** [del d[k]].  Python raises [KeyError] when [k] is missing; the only
    [del] of the class runs on a key that is present (lemma
    [merge_del_key_present]), so the deletion is total here and leaves a
    dictionary without the key as it is. *)
Fixpoint dict_del (k : string) (d : dict) : dict :=
  match d with
  | [] => []
  | (k', v') :: rest =>
      if String.eqb k k' then rest else (k', v') :: dict_del k rest
  end.

(** [d.update(items)], the effect of one [**items] in a dict display. *)
Definition dict_update (d : dict) (items : dict) : dict :=
  fold_left (fun acc kv => dict_set (fst kv) (snd kv) acc) items d.

(** The dict display [{**a, **b}]: a new dictionary filled from [a], then
    from [b]. *)
Definition dict_unpack2 (a b : dict) : dict :=
  dict_update (dict_update [] a) b.

(** [x is None] *)
Definition is_None (x : json) : bool :=
  match x with JNull => true | _ => false end.

(** Truth value of a Python object, as tested by [not x]. *)
Definition truthy (x : json) : bool :=
  match x with
  | JNull => false
  | JBool b => b
  | JNum n => negb (Z.eqb n 0)
  | JStr s => negb (String.eqb s "")
  | JArr xs => match xs with [] => false | _ => true end
  | JObj items => match items with [] => false | _ => true end
  end.

(** ** [json.dumps] with its default arguments

    Item separator [", "], key separator [": "], [ensure_ascii=True]. *)

Definition hex_digit (n : nat) : ascii :=
  nth n (list_ascii_of_string "0123456789abcdef") "0"%char.

(** ['\\u{0:04x}'.format(n)] for a code point below 256. *)
Definition escape_u (c : ascii) : string :=
  let n := nat_of_ascii c in
  String "\"%char (String "u"%char (String "0"%char (String "0"%char
    (String (hex_digit (n / 16)) (String (hex_digit (n mod 16)) EmptyString))))).

Definition backslashed (c : ascii) : string :=
  String "\"%char (String c EmptyString).

(** One character of [py_encode_basestring_ascii]. *)
Definition escape_char (c : ascii) : string :=
  let n := nat_of_ascii c in
  if Nat.eqb n 34 then backslashed "034"%char
  else if Nat.eqb n 92 then backslashed "\"%char
  else if Nat.eqb n 8 then backslashed "b"%char
  else if Nat.eqb n 12 then backslashed "f"%char
  else if Nat.eqb n 10 then backslashed "n"%char
  else if Nat.eqb n 13 then backslashed "r"%char
  else if Nat.eqb n 9 then backslashed "t"%char
  else if (Nat.leb 32 n && Nat.leb n 126)%bool then String c EmptyString
  else escape_u c.

Fixpoint escape_string (s : string) : string :=
  match s with
  | EmptyString => EmptyString
  | String c rest => escape_char c ++ escape_string rest
  end.

Definition dumps_str (s : string) : string :=
  String "034"%char (escape_string s ++ String "034"%char EmptyString).

Definition dumps_int (n : Z) : string :=
  NilZero.string_of_int (Z.to_int n).

Fixpoint json_dumps (j : json) : string :=
  match j with
  | JNull => "null"
  | JBool true => "true"
  | JBool false => "false"
  | JNum n => dumps_int n
  | JStr s => dumps_str s
  | JArr xs =>
      "[" ++
      (fix elems (l : list json) : string :=
         match l with
         | [] => ""
         | x :: rest =>
             json_dumps x ++
             match rest with [] => "" | _ :: _ => ", " ++ elems rest end
         end) xs
      ++ "]"
  | JObj items =>
      "{" ++
      (fix members (l : list (string * json)) : string :=
         match l with
         | [] => ""
         | (k, v) :: rest =>
             dumps_str k ++ ": " ++ json_dumps v ++
             match rest with [] => "" | _ :: _ => ", " ++ members rest end
         end) items
      ++ "}"
  end.

(** [json.dumps(d)] for a dictionary [d]. *)
Definition dumps_dict (d : dict) : string := json_dumps (JObj d).

(** ** Deep structural equality *)

(** The comparison of payloads in the words of the specification: deep
    structural equality in which the order of the keys of a mapping does not
    count.  The class never calls it; it compares [json.dumps] strings. *)
Fixpoint spec_deep_eqb (a b : json) : bool :=
  match a, b with
  | JNull, JNull => true
  | JBool x, JBool y => Bool.eqb x y
  | JNum x, JNum y => Z.eqb x y
  | JStr x, JStr y => String.eqb x y
  | JArr xs, JArr ys =>
      (fix all2 (l : list json) (r : list json) : bool :=
         match l, r with
         | [], [] => true
         | x :: l', y :: r' => spec_deep_eqb x y && all2 l' r'
         | _, _ => false
         end) xs ys
  | JObj xs, JObj ys =>
      Nat.eqb (List.length xs) (List.length ys) &&
      (fix members (l : list (string * json)) : bool :=
         match l with
         | [] => true
         | (k, v) :: l' =>
             match dict_get k ys with
             | Some w => spec_deep_eqb v w
             | None => false
             end && members l'
         end) xs
  | _, _ => false
  end.

Definition spec_dict_deep_eqb (a b : dict) : bool :=
  spec_deep_eqb (JObj a) (JObj b).

(** ** Collaborators of the session object *)

(** [user_context: Union[Dict[str, Any], None]] *)
Definition user_context : Type := option dict.

(** Modelled from the spec: a [SessionClaim], whose class is declared
    outside this file.  The specification gives its operations as functions
    of their arguments that change no object handed to them: [fetch_value]
    returns a value or [None], [add_to_payload_] the payload that represents
    the value, [remove_from_payload_by_merge_] the tombstones of the claim's
    keys. *)
Record SessionClaim : Type := {
  claim_key : string;
  fetch_value : string -> user_context -> json;
  add_to_payload_ : dict -> json -> user_context -> dict;
  remove_from_payload_by_merge_ : dict -> user_context -> dict;
}.

(** Modelled from the spec: a [SessionClaimValidator], whose class is
    declared outside this file.  [claim] is [None] for a validator that has
    no claim attribute or whose claim is [None]; [should_refetch] and
    [validate] are functions of the payload; [validate] returns the
    dictionary that [assert_claims] reads with [.get("isValid")] and
    [["reason"]]. *)
Record SessionClaimValidator : Type := {
  id : string;
  claim : option SessionClaim;
  should_refetch : dict -> user_context -> bool;
  validate : dict -> user_context -> dict;
}.

(** [ClaimValidationError(id, reason)] *)
Record ClaimValidationError : Type := {
  cve_id : string;
  cve_reason : json;
}.

(** [response.access_token] of [regenerate_access_token]. *)
Record AccessTokenObj : Type := {
  token : string;
  expiry : Z;
  created_time : Z;
}.

(** The response of [regenerate_access_token]: [response.session.user_data_in_jwt]
    and [response.access_token], which may be [None]. *)
Record RegenerateAccessTokenResult : Type := {
  user_data_in_jwt : dict;
  resp_access_token : option AccessTokenObj;
}.

(** The part of [recipe_implementation] the methods below call; [None] is
    the answer for a session that no longer exists. *)
Record RecipeInterface : Type := {
  regenerate_access_token :
    string -> dict -> user_context -> option RegenerateAccessTokenResult;
}.

(** The fields of a [Session] object. *)
Record Session : Type := {
  recipe_implementation : RecipeInterface;
  access_token : string;
  session_handle : string;
  user_id : string;
  access_token_payload : dict;
  new_access_token_info : option dict;
  remove_cookies : bool;
}.

(** The exceptions raised here: by [raise_unauthorised_exception], by
    [raise_invalid_claims_exception], and by a subscript on a missing key. *)
Inductive exn : Type :=
| UnauthorisedError (msg : string)
| InvalidClaimsError (msg : string) (payload : list ClaimValidationError)
| KeyError (key : string).

(** Calls observed during a run, oldest first: the calls into the
    validators and claims, the calls of [merge_into_access_token_payload]
    and the calls that reach the store. *)
Inductive event : Type :=
| EvShouldRefetch (validator_id : string) (payload : dict)
| EvFetchValue (validator_id : string) (uid : string)
| EvValidate (validator_id : string) (payload : dict)
| EvMergeInto (update : dict)
| EvRegenerate (current_token : string) (new_payload : dict).

(** ** Computations on a session

    A method runs on the session object and the call log; it returns a value
    or raises, and what it wrote before raising stays written. *)
Record world : Type := {
  self : Session;
  calls : list event;
}.

Definition M (A : Type) : Type := world -> (exn + A) * world.

Definition ret {A} (a : A) : M A := fun w => (inr a, w).

Definition raise {A} (e : exn) : M A := fun w => (inl e, w).

Definition bind {A B} (m : M A) (f : A -> M B) : M B :=
  fun w =>
    match m w with
    | (inl e, w') => (inl e, w')
    | (inr a, w') => f a w'
    end.

Notation "x <- m ;; k" := (bind m (fun x => k))
  (at level 61, m at next level, right associativity).
Notation "m ;;; k" := (bind m (fun _ => k))
  (at level 61, right associativity).

Definition get_self : M Session := fun w => (inr (self w), w).

Definition put_self (s : Session) : M unit :=
  fun w => (inr tt, {| self := s; calls := calls w |}).

Definition emit (e : event) : M unit :=
  fun w => (inr tt, {| self := self w; calls := (calls w ++ [e])%list |}).

(** [d[k]] *)
Definition getitem (d : dict) (k : string) : M json :=
  match dict_get k d with
  | Some v => ret v
  | None => raise (KeyError k)
  end.

(** A [for] loop that threads the loop's local variables. *)
Fixpoint for_each {A S} (xs : list A) (body : A -> S -> M S) (s : S) : M S :=
  match xs with
  | [] => ret s
  | x :: rest => s' <- body x s ;; for_each rest body s'
  end.

Definition outcome {A} (r : (exn + A) * world) : exn + A := fst r.
Definition final_self {A} (r : (exn + A) * world) : Session := self (snd r).
Definition final_calls {A} (r : (exn + A) * world) : list event := calls (snd r).

Definition initial (s : Session) : world := {| self := s; calls := [] |}.

(** ** The methods of [Session] *)

Definition get_access_token_payload : M dict :=
  s <- get_self ;; ret (access_token_payload s).

Definition get_user_id : M string :=
  s <- get_self ;; ret (user_id s).

Definition default_context (uc : user_context) : user_context :=
  match uc with None => Some [] | Some c => Some c end.

Definition set_access_token_payload (p : dict) (s : Session) : Session :=
  {| recipe_implementation := recipe_implementation s;
     access_token := access_token s;
     session_handle := session_handle s;
     user_id := user_id s;
     access_token_payload := p;
     new_access_token_info := new_access_token_info s;
     remove_cookies := remove_cookies s |}.

Definition set_access_token (t : string) (s : Session) : Session :=
  {| recipe_implementation := recipe_implementation s;
     access_token := t;
     session_handle := session_handle s;
     user_id := user_id s;
     access_token_payload := access_token_payload s;
     new_access_token_info := new_access_token_info s;
     remove_cookies := remove_cookies s |}.

Definition set_new_access_token_info (i : dict) (s : Session) : Session :=
  {| recipe_implementation := recipe_implementation s;
     access_token := access_token s;
     session_handle := session_handle s;
     user_id := user_id s;
     access_token_payload := access_token_payload s;
     new_access_token_info := Some i;
     remove_cookies := remove_cookies s |}.

Definition token_info (a : AccessTokenObj) : dict :=
  [("token", JStr (token a));
   ("expiry", JNum (expiry a));
   ("createdTime", JNum (created_time a))].

Definition update_access_token_payload
    (new_access_token_payload : dict) (uc : user_context) : M unit :=
  let uc := default_context uc in
  s <- get_self ;;
  emit (EvRegenerate (access_token s) new_access_token_payload) ;;;
  match regenerate_access_token (recipe_implementation s)
          (access_token s) new_access_token_payload uc with
  | None => raise (UnauthorisedError "Session does not exist anymore.")
  | Some response =>
      s <- get_self ;;
      put_self (set_access_token_payload (user_data_in_jwt response) s) ;;;
      match resp_access_token response with
      | Some tok =>
          s <- get_self ;;
          put_self (set_access_token (token tok) s) ;;;
          s <- get_self ;;
          put_self (set_new_access_token_info (token_info tok) s)
      | None => ret tt
      end
  end.

(** The body of the loop of [merge_into_access_token_payload]:
    [if access_token_payload_update[k] is None: del update_payload[k]]. *)
Definition drop_step (update : dict) (update_payload : dict) (k : string)
  : dict :=
  match dict_get k update with
  | Some v => if is_None v then dict_del k update_payload else update_payload
  | None => update_payload
  end.

(** Whether the update maps [k] to the delete-tombstone, the test of the
    loop body. *)
Definition tombstoned (update : dict) (k : string) : bool :=
  match dict_get k update with
  | Some v => is_None v
  | None => false
  end.

(** The loop over [access_token_payload_update.keys()]. *)
Definition drop_tombstones (update : dict) (update_payload : dict) : dict :=
  fold_left (drop_step update) (dict_keys update) update_payload.

(** The same loop with Python's partial operations: [None] stands for the
    [KeyError] of [access_token_payload_update[k]] or of
    [del update_payload[k]] on a missing key. *)
Definition drop_step_checked (update : dict) (acc : option dict) (k : string)
  : option dict :=
  match acc with
  | None => None
  | Some update_payload =>
      match dict_get k update with
      | Some v =>
          if is_None v then
            match dict_get k update_payload with
            | Some _ => Some (dict_del k update_payload)
            | None => None
            end
          else Some update_payload
      | None => None
      end
  end.

Definition drop_tombstones_checked (update : dict) (update_payload : dict)
  : option dict :=
  fold_left (drop_step_checked update) (dict_keys update) (Some update_payload).

(** The value of [update_payload] that [merge_into_access_token_payload]
    hands to [update_access_token_payload]. *)
Definition merge_payload (base update : dict) : dict :=
  drop_tombstones update (dict_unpack2 base update).

Definition merge_into_access_token_payload
    (access_token_payload_update : dict) (uc : user_context) : M unit :=
  emit (EvMergeInto access_token_payload_update) ;;;
  base <- get_access_token_payload ;;
  let update_payload := merge_payload base access_token_payload_update in
  update_access_token_payload update_payload uc.

(** The refetch part of one iteration of [assert_claims]. *)
Definition refetch_claim (validator : SessionClaimValidator)
    (uc : user_context) (new_access_token_payload : dict) : M dict :=
  match claim validator with
  | Some c =>
      emit (EvShouldRefetch (id validator) new_access_token_payload) ;;;
      if should_refetch validator new_access_token_payload uc then
        uid <- get_user_id ;;
        emit (EvFetchValue (id validator) uid) ;;;
        let value := fetch_value c uid uc in
        if negb (is_None value)
        then ret (add_to_payload_ c new_access_token_payload value uc)
        else ret new_access_token_payload
      else ret new_access_token_payload
  | None => ret new_access_token_payload
  end.

(** One iteration of the loop of [assert_claims]; the loop's variables are
    [new_access_token_payload] and [validation_errors]. *)
Definition check_validator (uc : user_context)
    (validator : SessionClaimValidator)
    (vars : dict * list ClaimValidationError)
  : M (dict * list ClaimValidationError) :=
  let '(new_access_token_payload, validation_errors) := vars in
  new_access_token_payload <- refetch_claim validator uc new_access_token_payload ;;
  emit (EvValidate (id validator) new_access_token_payload) ;;;
  let claim_validation_res := validate validator new_access_token_payload uc in
  if negb (match dict_get "isValid" claim_validation_res with
           | Some v => truthy v
           | None => false
           end)
  then
    reason <- getitem claim_validation_res "reason" ;;
    ret (new_access_token_payload,
         (validation_errors
            ++ [{| cve_id := id validator; cve_reason := reason |}])%list)
  else ret (new_access_token_payload, validation_errors).

Definition validation_pass (claim_validators : list SessionClaimValidator)
    (uc : user_context) (payload : dict)
  : M (dict * list ClaimValidationError) :=
  for_each claim_validators (check_validator uc) (payload, []).

(** The working payload starts as the session's payload.  The claims
    above build the payload they return and write into no dictionary handed
    to them, so the session keeps the payload it had at entry until
    [merge_into_access_token_payload] replaces it. *)
Definition assert_claims (claim_validators : list SessionClaimValidator)
    (uc : user_context) : M unit :=
  original <- get_access_token_payload ;;
  let original_session_claim_payload_json := dumps_dict original in
  new_access_token_payload <- get_access_token_payload ;;
  vars <- validation_pass claim_validators uc new_access_token_payload ;;
  let '(new_access_token_payload, validation_errors) := vars in
  (if negb (String.eqb (dumps_dict new_access_token_payload)
                       original_session_claim_payload_json)
   then merge_into_access_token_payload new_access_token_payload uc
   else ret tt) ;;;
  if Nat.ltb 0 (List.length validation_errors)
  then raise (InvalidClaimsError "INVALID_CLAIMS" validation_errors)
  else ret tt.

Definition remove_claim (c : SessionClaim) (uc : user_context) : M unit :=
  let uc := default_context uc in
  let update := remove_from_payload_by_merge_ c [] uc in
  merge_into_access_token_payload update uc.


(** ** What one validation pass computes

    Closed forms of what the loop of [assert_claims] does for one validator,
    read off the loop body: the payload it leaves, the calls it makes and
    the error it appends. *)

(** Whether the refetch branch is taken. *)
Definition refetch_triggered (uc : user_context)
    (validator : SessionClaimValidator) (payload : dict) : bool :=
  match claim validator with
  | Some _ => should_refetch validator payload uc
  | None => false
  end.

(** The working payload after the refetch part of an iteration. *)
Definition refetched (uid : string) (uc : user_context)
    (validator : SessionClaimValidator) (payload : dict) : dict :=
  match claim validator with
  | Some c =>
      if should_refetch validator payload uc then
        let value := fetch_value c uid uc in
        if is_None value then payload else add_to_payload_ c payload value uc
      else payload
  | None => payload
  end.

(** The calls of an iteration that starts with working payload [payload]. *)
Definition iteration_calls (uid : string) (uc : user_context)
    (validator : SessionClaimValidator) (payload : dict) : list event :=
  (match claim validator with
   | Some _ =>
       EvShouldRefetch (id validator) payload ::
       (if should_refetch validator payload uc
        then [EvFetchValue (id validator) uid] else [])
   | None => []
   end ++ [EvValidate (id validator) (refetched uid uc validator payload)])%list.

(** [not claim_validation_res.get("isValid")] *)
Definition reported_invalid (claim_validation_res : dict) : bool :=
  negb (match dict_get "isValid" claim_validation_res with
        | Some v => truthy v
        | None => false
        end).

(** The verdict of a validator on the payload it is shown: no error, one
    error, or the [KeyError] of reading a missing ["reason"]. *)
Definition verdict (uc : user_context) (validator : SessionClaimValidator)
    (shown : dict) : exn + list ClaimValidationError :=
  let res := validate validator shown uc in
  if reported_invalid res then
    match dict_get "reason" res with
    | Some reason => inr [{| cve_id := id validator; cve_reason := reason |}]
    | None => inl (KeyError "reason")
    end
  else inr [].

Definition iteration_errors (uid : string) (uc : user_context)
    (validator : SessionClaimValidator) (payload : dict)
  : list ClaimValidationError :=
  match verdict uc validator (refetched uid uc validator payload) with
  | inr errs => errs
  | inl _ => []
  end.

(** The working payload after the refetches of the validators [pre], in
    order. *)
Definition working_after (uid : string) (uc : user_context)
    (pre : list SessionClaimValidator) (payload : dict) : dict :=
  fold_left (fun p v => refetched uid uc v p) pre payload.

(** Each element of a list paired with the elements before it. *)
Fixpoint with_prefix {A} (pre : list A) (xs : list A) : list (list A * A) :=
  match xs with
  | [] => []
  | x :: rest => (pre, x) :: with_prefix (pre ++ [x])%list rest
  end.

(** The calls of a pass over [vs] that are due to the validators: those of
    the first validator on the entry payload, then those of the second on
    the payload the first left, and so on. *)
Definition pass_calls (uid : string) (uc : user_context) (payload : dict)
    (pre vs : list SessionClaimValidator) : list event :=
  flat_map
    (fun pv => iteration_calls uid uc (snd pv)
                 (working_after uid uc (fst pv) payload))
    (with_prefix pre vs).

Definition pass_errors (uid : string) (uc : user_context) (payload : dict)
    (pre vs : list SessionClaimValidator) : list ClaimValidationError :=
  flat_map
    (fun pv => iteration_errors uid uc (snd pv)
                 (working_after uid uc (fst pv) payload))
    (with_prefix pre vs).

(** The updates of the calls of [merge_into_access_token_payload] in a log,
    and the payloads of the calls that reached the store. *)
Definition merge_calls (l : list event) : list dict :=
  flat_map (fun e => match e with EvMergeInto u => [u] | _ => [] end) l.

Definition store_calls (l : list event) : list (string * dict) :=
  flat_map (fun e => match e with EvRegenerate t p => [(t, p)] | _ => [] end) l.

(** ** The merge on dictionary objects

    Lines 217-223 of the class with dictionaries as objects in a heap: the
    dict display allocates a new object and [del] changes the object it is
    applied to. *)
Definition loc : Type := nat.

Definition heap : Type := list dict.

Definition heap_get (h : heap) (l : loc) : option dict := nth_error h l.

Fixpoint heap_put (h : heap) (l : loc) (d : dict) : heap :=
  match h, l with
  | [], _ => []
  | _ :: rest, O => d :: rest
  | x :: rest, S l' => x :: heap_put rest l' d
  end.

Definition heap_new (h : heap) (d : dict) : heap * loc :=
  ((h ++ [d])%list, List.length h).

(** [if access_token_payload_update[k] is None: del update_payload[k]] *)
Definition del_if_tombstone (upd update_payload : loc) (h : heap) (k : string)
  : heap :=
  match heap_get h upd, heap_get h update_payload with
  | Some u, Some p =>
      if tombstoned u k then heap_put h update_payload (dict_del k p) else h
  | _, _ => h
  end.

(** [base] is the object [self.get_access_token_payload()] returns, [upd]
    the object [access_token_payload_update]; the result is the heap after
    the loop and the object bound to [update_payload]. *)
Definition merge_objects (h : heap) (base upd : loc) : option (heap * loc) :=
  match heap_get h base, heap_get h upd with
  | Some b, Some u =>
      let '(h1, update_payload) := heap_new h (dict_unpack2 b u) in
      Some (fold_left (del_if_tombstone upd update_payload) (dict_keys u) h1,
            update_payload)
  | _, _ => None
  end.

(** The session object once a response of the store has been written into
    it: every field in terms of the response and of the session before. *)
Definition acknowledged (response : RegenerateAccessTokenResult) (s : Session)
  : Session :=
  {| recipe_implementation := recipe_implementation s;
     access_token :=
       match resp_access_token response with
       | Some tok => token tok
       | None => access_token s
       end;
     session_handle := session_handle s;
     user_id := user_id s;
     access_token_payload := user_data_in_jwt response;
     new_access_token_info :=
       match resp_access_token response with
       | Some tok => Some (token_info tok)
       | None => new_access_token_info s
       end;
     remove_cookies := remove_cookies s |}.

(** The answer of the store to the call [update_access_token_payload] makes
    for [new_payload] on session [s]. *)
Definition store_answer (s : Session) (new_payload : dict) (uc : user_context)
  : option RegenerateAccessTokenResult :=
  regenerate_access_token (recipe_implementation s) (access_token s)
    new_payload (default_context uc).

(** ** Decidable well-formedness *)

Fixpoint nodupb (ks : list string) : bool :=
  match ks with
  | [] => true
  | k :: rest => negb (existsb (String.eqb k) rest) && nodupb rest
  end.

Definition dict_wfb (d : dict) : bool := nodupb (dict_keys d).

(** ** Sample sessions, claims and validators *)

Module Sample.

(** A store that acknowledges every payload as sent and issues a new
    token. *)
Definition echo_store : RecipeInterface :=
  {| regenerate_access_token := fun _ new_payload _ =>
       Some {| user_data_in_jwt := new_payload;
               resp_access_token :=
                 Some {| token := "t2"; expiry := 3600; created_time := 100 |} |} |}.

(** A store that acknowledges and keeps the token. *)
Definition quiet_store : RecipeInterface :=
  {| regenerate_access_token := fun _ new_payload _ =>
       Some {| user_data_in_jwt := new_payload;
               resp_access_token := None |} |}.

(** A store in which the session no longer exists. *)
Definition gone_store : RecipeInterface :=
  {| regenerate_access_token := fun _ _ _ => None |}.

Definition session_on (store : RecipeInterface) : Session :=
  {| recipe_implementation := store;
     access_token := "t1";
     session_handle := "h1";
     user_id := "u1";
     access_token_payload := [("role", JStr "user"); ("sub", JStr "u1")];
     new_access_token_info := None;
     remove_cookies := false |}.

(** A claim stored under the key ["role"], fetched as ["admin"]. *)
Definition role_claim : SessionClaim :=
  {| claim_key := "role";
     fetch_value := fun _ _ => JStr "admin";
     add_to_payload_ := fun payload value _ => dict_set "role" value payload;
     remove_from_payload_by_merge_ := fun payload _ =>
       dict_set "role" JNull payload |}.

(** A claim that fetches the value the payload already has and returns a
    payload in which its key has moved to the end. *)
Definition moving_claim : SessionClaim :=
  {| claim_key := "role";
     fetch_value := fun _ _ => JStr "user";
     add_to_payload_ := fun payload value _ =>
       dict_set "role" value (dict_del "role" payload);
     remove_from_payload_by_merge_ := fun payload _ =>
       dict_set "role" JNull payload |}.

Definition is_admin (payload : dict) : dict :=
  match dict_get "role" payload with
  | Some (JStr "admin") => [("isValid", JBool true)]
  | _ => [("isValid", JBool false); ("reason", JStr "not admin")]
  end.

(** Refetches [c] every time and accepts every payload. *)
Definition refreshing (c : SessionClaim) : SessionClaimValidator :=
  {| id := "refresh";
     claim := Some c;
     should_refetch := fun _ _ => true;
     validate := fun _ _ => [("isValid", JBool true)] |}.

(** Never refetches; accepts a payload whose role is ["admin"]. *)
Definition admin_only : SessionClaimValidator :=
  {| id := "admin-only";
     claim := None;
     should_refetch := fun _ _ => false;
     validate := fun payload _ => is_admin payload |}.

(** Rejects every payload, with a reason. *)
Definition rejecting : SessionClaimValidator :=
  {| id := "reject";
     claim := None;
     should_refetch := fun _ _ => false;
     validate := fun _ _ =>
       [("isValid", JBool false); ("reason", JStr "rejected")] |}.

(** Rejects every payload and gives no reason. *)
Definition silent : SessionClaimValidator :=
  {| id := "silent";
     claim := None;
     should_refetch := fun _ _ => false;
     validate := fun _ _ => [("isValid", JBool false)] |}.

End Sample.

(** ** Reading serialised text back

    What is needed to tell where a serialised value ends: the class of its
    first character, the decoding of one escaped character, and the top-level
    forms of the two local loops of [json_dumps]. *)

Definition kind (j : json) : nat :=
  match j with
  | JNull => 1
  | JBool _ => 2
  | JNum _ => 3
  | JStr _ => 4
  | JArr _ => 5
  | JObj _ => 6
  end.

(** A character of a serialised integer: a digit or the sign. *)
Definition is_num_char (c : ascii) : bool :=
  let n := nat_of_ascii c in
  (Nat.eqb n 45 || (Nat.leb 48 n && Nat.leb n 57))%bool.

(** The kind of value that starts with [c]; [0] when none does. *)
Definition kind_char (c : ascii) : nat :=
  let n := nat_of_ascii c in
  if Nat.eqb n 110 then 1
  else if (Nat.eqb n 116 || Nat.eqb n 102)%bool then 2
  else if is_num_char c then 3
  else if Nat.eqb n 34 then 4
  else if Nat.eqb n 91 then 5
  else if Nat.eqb n 123 then 6
  else 0.

(** The text after a value does not go on with a digit or a sign. *)
Definition closes (r : string) : Prop :=
  match r with
  | EmptyString => True
  | String c _ => is_num_char c = false
  end.

Fixpoint all_chars (p : ascii -> bool) (s : string) : bool :=
  match s with
  | EmptyString => true
  | String c rest => (p c && all_chars p rest)%bool
  end.

Definition hex_value (c : ascii) : nat :=
  let n := nat_of_ascii c in
  if (Nat.leb 48 n && Nat.leb n 57)%bool then n - 48 else n - 87.

(** The character at the head of escaped text and the text after it; [None]
    at a closing quote. *)
Definition unescape_head (s : string) : option (ascii * string) :=
  match s with
  | EmptyString => None
  | String c rest =>
      if Nat.eqb (nat_of_ascii c) 92 then
        match rest with
        | EmptyString => None
        | String e rest' =>
            let m := nat_of_ascii e in
            if Nat.eqb m 117 then
              match rest' with
              | String _ (String _ (String h1 (String h2 rest''))) =>
                  Some (ascii_of_nat (16 * hex_value h1 + hex_value h2), rest'')
              | _ => None
              end
            else if Nat.eqb m 98 then Some (ascii_of_nat 8, rest')
            else if Nat.eqb m 102 then Some (ascii_of_nat 12, rest')
            else if Nat.eqb m 110 then Some (ascii_of_nat 10, rest')
            else if Nat.eqb m 114 then Some (ascii_of_nat 13, rest')
            else if Nat.eqb m 116 then Some (ascii_of_nat 9, rest')
            else Some (e, rest')
        end
      else if Nat.eqb (nat_of_ascii c) 34 then None
      else Some (c, rest)
  end.

(** The loops of [json_dumps] over the elements of a list and over the
    items of a dictionary. *)
Fixpoint dumps_elems (l : list json) : string :=
  match l with
  | [] => ""
  | x :: rest =>
      json_dumps x ++
      match rest with [] => "" | _ :: _ => ", " ++ dumps_elems rest end
  end.

Fixpoint dumps_members (l : list (string * json)) : string :=
  match l with
  | [] => ""
  | (k, v) :: rest =>
      dumps_str k ++ ": " ++ json_dumps v ++
      match rest with [] => "" | _ :: _ => ", " ++ dumps_members rest end
  end.

(** A serialised value followed by closing text can be read back in one
    way only. *)
Definition unique_parse (j : json) : Prop :=
  forall j' r r',
    closes r -> closes r' ->
    json_dumps j ++ r = json_dumps j' ++ r' -> j = j' /\ r = r'.

(** ** The other claim helpers of [Session] *)

Definition set_claim_value (c : SessionClaim) (value : json)
    (uc : user_context) : M unit :=
  let update := add_to_payload_ c [] value uc in
  merge_into_access_token_payload update uc.

(** [claim.build] belongs to the claim's class, declared outside this file;
    it is taken as the function [build] of the user id and the context. *)
Definition fetch_and_set_claim (build : string -> user_context -> dict)
    (uc : user_context) : M unit :=
  uid <- get_user_id ;;
  let update := build uid uc in
  merge_into_access_token_payload update uc.

(** [k in keys] *)
Definition key_in (k : string) (keys : list string) : bool :=
  existsb (String.eqb k) keys.

(** The keys of the payload [merge_into_access_token_payload] computes, in
    terms of the keys of its two arguments: the keys of the base that the
    update does not delete, in their order, then the keys the update adds,
    in its order. *)
Definition merged_keys (base update : dict) : list string :=
  (filter (fun k => negb (tombstoned update k)) (dict_keys base)
   ++ filter (fun k => negb (tombstoned update k)
                       && negb (key_in k (dict_keys base)))%bool
        (dict_keys update))%list.

(** The fields of a session that say whose session it is and through which
    recipe it talks to the store. *)
Definition same_identity (a b : Session) : Prop :=
  user_id a = user_id b /\
  session_handle a = session_handle b /\
  recipe_implementation a = recipe_implementation b /\
  remove_cookies a = remove_cookies b.

(** ** [revoke_session]

    [revoke_session] calls a function of [recipe_implementation] that the
    record above does not carry; it is the field of [Store.t].  The call is
    awaited outside any [try]: what it raises, [revoke_session] raises. *)

(** What the functions of the recipe implementation and the API functions
    raise: an exception of the session recipe, the request to refresh the
    token, or any other exception with its message. *)
Inductive raised : Type :=
| SessionError (e : exn)
| TryRefreshTokenError (msg : string)
| GeneralException (msg : string).

Module Store.

(** [recipe_implementation.revoke_session(session_handle, user_context)]
    returns whether a session was revoked, or raises. *)
Record t : Type := {
  revoke_session : string -> user_context -> raised + bool;
}.

(** The calls that reach the store, with their arguments. *)
Inductive call : Type :=
| Revoke (handle : string) (uc : user_context).

End Store.

(** The result of a store-side method: what it returns or raises, the
    session object afterwards, and the calls it made. *)
Definition store_run (A : Type) : Type :=
  ((raised + A) * Session * list Store.call)%type.

Definition set_remove_cookies (b : bool) (s : Session) : Session :=
  {| recipe_implementation := recipe_implementation s;
     access_token := access_token s;
     session_handle := session_handle s;
     user_id := user_id s;
     access_token_payload := access_token_payload s;
     new_access_token_info := new_access_token_info s;
     remove_cookies := b |}.

(** The flag is set after the call returned, whatever it returned; a call
    that raises leaves the flag as it was. *)
Definition revoke_session (st : Store.t) (uc : user_context) (s : Session)
  : store_run unit :=
  let uc := default_context uc in
  let log := [Store.Revoke (session_handle s) uc] in
  match Store.revoke_session st (session_handle s) uc with
  | inl e => (inl e, s, log)
  | inr _ => (inr tt, set_remove_cookies true s, log)
  end.

(** ** The session API: [APIImplementation]

    [refresh_session], [get_session] and [assert_claims] are functions of
    [api_options.recipe_implementation]; [normalise_http_method] and the
    constructor of [NormalisedURLPath] are declared outside this file.  They
    are the fields of [APIOptions]; a normalised path is the string it
    holds, and [refresh_token_path] is the one of the configuration.
    [session_store] is the store behind the recipe implementation of the
    session objects that [get_session] returns. *)

Module Api.

(** [except UnauthorisedError] *)
Definition is_unauthorised (e : raised) : bool :=
  match e with
  | SessionError (UnauthorisedError _) => true
  | _ => false
  end.

Record Request : Type := {
  method : string;
  get_path : string;
}.

(** [override_global_claim_validators] *)
Definition Override : Type :=
  Session -> list SessionClaimValidator -> user_context
  -> list SessionClaimValidator.

Record APIOptions : Type := {
  request : Request;
  refresh_token_path : string;
  normalise_http_method : string -> string;
  normalised_url_path : string -> raised + string;
  refresh_session : Request -> user_context -> raised + Session;
  get_session :
    Request -> option bool -> bool -> option Override -> user_context
    -> raised + option Session;
  assert_claims :
    Session -> option Override -> user_context -> raised + Session;
  session_store : Store.t;
}.

(** The calls of the API functions into their collaborators, and the calls
    of the session's own methods into the store. *)
Inductive call : Type :=
| RefreshSession (r : Request) (uc : user_context)
| GetSession (r : Request) (anti_csrf_check : option bool)
    (session_required : bool) (override : option Override)
    (uc : user_context)
| AssertClaims (handle : string) (override : option Override)
    (uc : user_context)
| SessionCall (c : Store.call).

Inductive SignOutOkayResponse : Type := SignOutOkay.

Definition verify_session (o : APIOptions) (anti_csrf_check : option bool)
    (session_required : bool) (override : option Override)
    (uc : user_context) : (raised + option Session) * list call :=
  let method := normalise_http_method o (method (request o)) in
  if (String.eqb method "options" || String.eqb method "trace")%bool
  then (inr None, [])
  else
    match normalised_url_path o (get_path (request o)) with
    | inl e => (inl e, [])
    | inr incoming_path =>
        if (String.eqb incoming_path (refresh_token_path o)
            && String.eqb method "post")%bool
        then
          let log := [RefreshSession (request o) uc] in
          match refresh_session o (request o) uc with
          | inl e => (inl e, log)
          | inr session => (inr (Some session), log)
          end
        else
          let log := [GetSession (request o) anti_csrf_check session_required
                        override uc] in
          match get_session o (request o) anti_csrf_check session_required
                  override uc with
          | inl e => (inl e, log)
          | inr None => (inr None, log)
          | inr (Some session) =>
              let log :=
                (log ++ [AssertClaims (session_handle session) override uc])%list
              in
              match assert_claims o session override uc with
              | inl e => (inl e, log)
              | inr session => (inr (Some session), log)
              end
          end
    end.

(** [lambda _, __, ___: []] *)
Definition no_global_validators : Override := fun _ _ _ => [].

(** The session's [revoke_session] is awaited after the [try] statement:
    the unauthorised error is caught from [get_session] only.  The result
    carries the session object as [revoke_session] left it, when there was
    one. *)
Definition signout_post (o : APIOptions) (uc : user_context)
  : (raised + SignOutOkayResponse) * option Session * list call :=
  let log :=
    [GetSession (request o) None true (Some no_global_validators) uc] in
  match get_session o (request o) None true (Some no_global_validators) uc with
  | inl e =>
      if is_unauthorised e then (inr SignOutOkay, None, log)
      else (inl e, None, log)
  | inr None =>
      (inl (GeneralException "Session is undefined. Should not come here."),
       None, log)
  | inr (Some session) =>
      match revoke_session (session_store o) uc session with
      | (inl e, session, calls) =>
          (inl e, Some session, (log ++ map SessionCall calls)%list)
      | (inr _, session, calls) =>
          (inr SignOutOkay, Some session, (log ++ map SessionCall calls)%list)
      end
  end.

End Api.

(** ** [ThirdPartyEmailPasswordRecipe]

    The recipe routes requests and errors to its child recipes.  The types
    of requests, responses, results, errors, paths and API descriptions are
    those of the framework, declared outside this file, and stay abstract;
    so do the two [isinstance] tests on an error. *)

Module ThirdPartyEmailPassword.

Module Child.
Section Interface.

Context {Request Response Result Error Path APIHandled : Type}.

(** What the recipe calls on a child recipe (a [RecipeModule]). *)
Record t : Type := {
  return_api_id_if_can_handle_request : Path -> string -> option string;
  handle_api_request :
    string -> Request -> Path -> string -> Response -> Result;
  is_error_from_this_or_child_recipe_based_on_instance : Error -> bool;
  handle_error : Request -> Error -> Response -> Result;
  get_apis_handled : list APIHandled;
  get_all_cors_headers : list string;
}.

End Interface.
Arguments t : clear implicits.
End Child.

Section Recipe.

Context {Request Response Result Error Path APIHandled : Type}.

Local Abbreviation child :=
  (Child.t Request Response Result Error Path APIHandled).

(** [isinstance(err, SuperTokensError)] and
    [isinstance(err, SupertokensThirdPartyEmailPasswordError)] *)
Context (is_SuperTokensError : Error -> bool).
Context (is_SupertokensThirdPartyEmailPasswordError : Error -> bool).

(** The child recipes held by the recipe object after [__init__]. *)
Record t : Type := {
  email_verification_recipe : child;
  email_password_recipe : child;
  third_party_recipe : option child;
}.

Definition is_error_from_this_or_child_recipe_based_on_instance
    (self : t) (err : Error) : bool :=
  (is_SuperTokensError err
   && (is_SupertokensThirdPartyEmailPasswordError err
       || Child.is_error_from_this_or_child_recipe_based_on_instance
            (email_verification_recipe self) err
       || Child.is_error_from_this_or_child_recipe_based_on_instance
            (email_password_recipe self) err
       || match third_party_recipe self with
          | Some tp =>
              Child.is_error_from_this_or_child_recipe_based_on_instance tp err
          | None => false
          end))%bool.

Definition get_apis_handled (self : t) : list APIHandled :=
  let apis_handled :=
    (Child.get_apis_handled (email_password_recipe self)
     ++ Child.get_apis_handled (email_verification_recipe self))%list in
  match third_party_recipe self with
  | Some tp => (apis_handled ++ Child.get_apis_handled tp)%list
  | None => apis_handled
  end.

(** [x is not None] *)
Definition is_not_None {A} (x : option A) : bool :=
  match x with Some _ => true | None => false end.

Definition handle_api_request (self : t) (request_id : string)
    (request : Request) (path : Path) (method : string) (response : Response)
  : Result :=
  if is_not_None
       (Child.return_api_id_if_can_handle_request
          (email_password_recipe self) path method)
  then Child.handle_api_request (email_password_recipe self)
         request_id request path method response
  else
    match third_party_recipe self with
    | Some tp =>
        if is_not_None
             (Child.return_api_id_if_can_handle_request tp path method)
        then Child.handle_api_request tp request_id request path method response
        else Child.handle_api_request (email_verification_recipe self)
               request_id request path method response
    | None =>
        Child.handle_api_request (email_verification_recipe self)
          request_id request path method response
    end.

Definition handle_error (self : t) (request : Request) (error : Error)
    (response : Response) : Result :=
  if Child.is_error_from_this_or_child_recipe_based_on_instance
       (email_password_recipe self) error
  then Child.handle_error (email_password_recipe self) request error response
  else
    match third_party_recipe self with
    | Some tp =>
        if Child.is_error_from_this_or_child_recipe_based_on_instance tp error
        then Child.handle_error tp request error response
        else Child.handle_error (email_verification_recipe self)
               request error response
    | None =>
        Child.handle_error (email_verification_recipe self)
          request error response
    end.

Definition get_all_cors_headers (self : t) : list string :=
  let cors_headers :=
    (Child.get_all_cors_headers (email_password_recipe self)
     ++ Child.get_all_cors_headers (email_verification_recipe self))%list in
  match third_party_recipe self with
  | Some tp => (cors_headers ++ Child.get_all_cors_headers tp)%list
  | None => cors_headers
  end.

(** The child recipes of a recipe object. *)
Definition children (self : t) : list child :=
  (email_password_recipe self :: email_verification_recipe self ::
   match third_party_recipe self with Some tp => [tp] | None => [] end)%list.

(** *** The singleton: [init], [get_instance], [reset] *)

(** A plain [Exception] with its arguments. *)
Inductive py_exception : Type :=
| Exception_ (args : list (option string)).

(** The class attribute that [reset] assigns.  Inside the class body the
    name [ThirdPartyRecipe.__instance] is the attribute
    [_ThirdPartyEmailPasswordRecipe__instance] of the class
    [ThirdPartyRecipe]: it is not the [__instance] of this class. *)
Inductive attribute : Type :=
| Undefined
| HoldsNone.

(** The state the three static methods read and write:
    [ThirdPartyEmailPasswordRecipe.__instance], the attribute of
    [ThirdPartyRecipe] above, and [os.environ]. *)
Record class_state : Type := {
  instance : option t;
  third_party_attribute : attribute;
  environ : string -> option string;
}.

Definition set_instance (r : t) (st : class_state) : class_state :=
  {| instance := Some r;
     third_party_attribute := third_party_attribute st;
     environ := environ st |}.

Definition set_third_party_attribute (st : class_state) : class_state :=
  {| instance := instance st;
     third_party_attribute := HoldsNone;
     environ := environ st |}.

Definition already_initialised : py_exception :=
  Exception_
    [None;
     Some ("ThirdPartyEmailPassword recipe has already been initialised. Please "
           ++ "check your code for bugs.")].

Definition not_initialised : py_exception :=
  Exception_
    [None;
     Some "Initialisation not done. Did you forget to call the SuperTokens.init function?"].

Definition not_testing : py_exception :=
  Exception_ [None; Some "calling testing function in non testing env"].

(** [init(config)(app_info)]; [construct] is the constructor call
    [ThirdPartyEmailPasswordRecipe(recipe_id, app_info, config)], which may
    raise. *)
Definition init {Config AppInfo : Type}
    (construct : AppInfo -> Config -> py_exception + t)
    (config : Config) (app_info : AppInfo) (st : class_state)
  : (py_exception + t) * class_state :=
  match instance st with
  | None =>
      match construct app_info config with
      | inl e => (inl e, st)
      | inr r => (inr r, set_instance r st)
      end
  | Some _ => (inl already_initialised, st)
  end.

Definition get_instance (st : class_state)
  : (py_exception + t) * class_state :=
  match instance st with
  | Some r => (inr r, st)
  | None => (inl not_initialised, st)
  end.

Definition reset (st : class_state) : (py_exception + unit) * class_state :=
  if match environ st "SUPERTOKENS_ENV" with
     | None => true
     | Some v => negb (String.eqb v "testing")
     end
  then (inl not_testing, st)
  else (inr tt, set_third_party_attribute st).

(** A call of one of the three static methods, and its result. *)
Inductive static_call {Config AppInfo : Type} : Type :=
| CallInit (config : Config) (app_info : AppInfo)
| CallGetInstance
| CallReset.

Inductive static_result : Type :=
| Returned (r : option t)
| Raised (e : py_exception).

Definition run_call {Config AppInfo : Type}
    (construct : AppInfo -> Config -> py_exception + t)
    (c : @static_call Config AppInfo) (st : class_state)
  : static_result * class_state :=
  match c with
  | CallInit config app_info =>
      match init construct config app_info st with
      | (inl e, st') => (Raised e, st')
      | (inr r, st') => (Returned (Some r), st')
      end
  | CallGetInstance =>
      match get_instance st with
      | (inl e, st') => (Raised e, st')
      | (inr r, st') => (Returned (Some r), st')
      end
  | CallReset =>
      match reset st with
      | (inl e, st') => (Raised e, st')
      | (inr _, st') => (Returned None, st')
      end
  end.

Fixpoint run_calls {Config AppInfo : Type}
    (construct : AppInfo -> Config -> py_exception + t)
    (cs : list (@static_call Config AppInfo)) (st : class_state)
  : list static_result * class_state :=
  match cs with
  | [] => ([], st)
  | c :: rest =>
      let '(res, st') := run_call construct c st in
      let '(results, st'') := run_calls construct rest st' in
      (res :: results, st'')
  end.

End Recipe.

End ThirdPartyEmailPassword.

(** ** Sample recipe objects *)

Module RecipeSample.

Import ThirdPartyEmailPassword.

(** A child recipe over strings that handles the paths and claims the
    errors of one prefix. *)
Definition child_for (name : string)
  : Child.t string string string string string string :=
  {| Child.return_api_id_if_can_handle_request := fun path _ =>
       if String.prefix name path then Some name else None;
     Child.handle_api_request := fun _ _ path _ _ => (name ++ ":" ++ path)%string;
     Child.is_error_from_this_or_child_recipe_based_on_instance := fun err =>
       String.prefix name err;
     Child.handle_error := fun _ err _ => (name ++ "!" ++ err)%string;
     Child.get_apis_handled := [name];
     Child.get_all_cors_headers := [] |}.

Definition recipe : @ThirdPartyEmailPassword.t string string string string string string :=
  {| email_verification_recipe := child_for "ev";
     email_password_recipe := child_for "ep";
     third_party_recipe := Some (child_for "tp") |}.

(** The class state after an [init] that built [recipe], in a testing
    environment. *)
Definition initialised : @class_state string string string string string string :=
  {| instance := Some recipe;
     third_party_attribute := Undefined;
     environ := fun name =>
       if String.eqb name "SUPERTOKENS_ENV" then Some "testing" else None |}.

End RecipeSample.
(** * Properties *)

Open Scope list_scope.

(** ** Dictionaries *)

Section DictFacts.

Implicit Types (k : string) (v : json) (d : dict).

Lemma dict_get_set_same k v d : dict_get k (dict_set k v d) = Some v.
Proof.
  induction d as [|[k' v'] rest IH]; simpl.
  - now rewrite String.eqb_refl.
  - destruct (String.eqb k k') eqn:E; simpl; rewrite E; auto.
Qed.

Lemma dict_get_set_other k k' v d :
  k <> k' -> dict_get k (dict_set k' v d) = dict_get k d.
Proof.
  intros Hne. induction d as [|[k0 v0] rest IH]; simpl.
  - apply String.eqb_neq in Hne. now rewrite Hne.
  - destruct (String.eqb k' k0) eqn:E; simpl.
    + apply String.eqb_eq in E. subst k0.
      apply String.eqb_neq in Hne. now rewrite Hne.
    + now rewrite IH.
Qed.

Lemma dict_get_None k d : dict_get k d = None <-> ~ In k (dict_keys d).
Proof.
  induction d as [|[k' v'] rest IH]; simpl.
  - tauto.
  - destruct (String.eqb k k') eqn:E.
    + apply String.eqb_eq in E. subst. split; [discriminate | tauto].
    + apply String.eqb_neq in E. rewrite IH. intuition congruence.
Qed.

Lemma dict_get_Some_In k v d : dict_get k d = Some v -> In k (dict_keys d).
Proof.
  intros H. destruct (in_dec string_dec k (dict_keys d)) as [Hin|Hout]; auto.
  apply dict_get_None in Hout. congruence.
Qed.

Lemma dict_keys_set k k' v d :
  In k (dict_keys (dict_set k' v d)) <-> k = k' \/ In k (dict_keys d).
Proof.
  induction d as [|[k0 v0] rest IH]; simpl.
  - intuition congruence.
  - destruct (String.eqb k' k0) eqn:E; simpl.
    + apply String.eqb_eq in E. subst. intuition congruence.
    + rewrite IH. intuition congruence.
Qed.

Lemma dict_set_wf k v d : dict_wf d -> dict_wf (dict_set k v d).
Proof.
  unfold dict_wf. induction d as [|[k0 v0] rest IH]; simpl; intros Hwf.
  - constructor; [simpl; tauto | constructor].
  - inversion Hwf as [|? ? Hnotin Hrest]; subst.
    destruct (String.eqb k k0) eqn:E; simpl.
    + now constructor.
    + constructor; auto.
      intros Hin. apply (dict_keys_set k0 k v rest) in Hin.
      apply String.eqb_neq in E. destruct Hin; [congruence | contradiction].
Qed.

Lemma dict_set_fresh k v d :
  ~ In k (dict_keys d) -> dict_set k v d = (d ++ [(k, v)])%list.
Proof.
  induction d as [|[k0 v0] rest IH]; simpl; intros Hout; auto.
  destruct (String.eqb k k0) eqn:E.
  - apply String.eqb_eq in E. subst. exfalso. apply Hout. now left.
  - rewrite IH; [reflexivity|]. intros Hin. apply Hout. now right.
Qed.

Lemma dict_keys_del k k' d :
  In k (dict_keys (dict_del k' d)) -> In k (dict_keys d).
Proof.
  induction d as [|[k0 v0] rest IH]; simpl; auto.
  destruct (String.eqb k' k0); simpl; intuition.
Qed.

Lemma dict_del_wf k d : dict_wf d -> dict_wf (dict_del k d).
Proof.
  unfold dict_wf. induction d as [|[k0 v0] rest IH]; simpl; intros Hwf; auto.
  inversion Hwf as [|? ? Hnotin Hrest]; subst.
  destruct (String.eqb k k0); simpl; auto.
  constructor; auto. intros Hin. apply Hnotin. eapply dict_keys_del; eauto.
Qed.

Lemma dict_get_del_same k d : dict_wf d -> dict_get k (dict_del k d) = None.
Proof.
  unfold dict_wf. induction d as [|[k0 v0] rest IH]; simpl; intros Hwf; auto.
  inversion Hwf as [|? ? Hnotin Hrest]; subst.
  destruct (String.eqb k k0) eqn:E; simpl.
  - apply String.eqb_eq in E. subst. now apply dict_get_None.
  - rewrite E. auto.
Qed.

Lemma dict_get_del_other k k' d :
  k <> k' -> dict_get k (dict_del k' d) = dict_get k d.
Proof.
  intros Hne. induction d as [|[k0 v0] rest IH]; simpl; auto.
  destruct (String.eqb k' k0) eqn:E; simpl.
  - apply String.eqb_eq in E. subst.
    apply String.eqb_neq in Hne. now rewrite Hne.
  - now rewrite IH.
Qed.

Lemma dict_update_wf d items : dict_wf d -> dict_wf (dict_update d items).
Proof.
  unfold dict_update. revert d.
  induction items as [|[k v] rest IH]; simpl; intros d Hwf; auto.
  apply IH. now apply dict_set_wf.
Qed.

Lemma dict_update_get k d items :
  dict_wf items ->
  dict_get k (dict_update d items) =
    match dict_get k items with
    | Some v => Some v
    | None => dict_get k d
    end.
Proof.
  unfold dict_update, dict_wf. revert d.
  induction items as [|[k0 v0] rest IH]; simpl; intros d Hwf; auto.
  inversion Hwf as [|? ? Hnotin Hrest]; subst.
  rewrite IH by assumption.
  destruct (String.eqb k k0) eqn:E.
  - apply String.eqb_eq in E. subst.
    apply dict_get_None in Hnotin. rewrite Hnotin.
    apply dict_get_set_same.
  - apply String.eqb_neq in E.
    destruct (dict_get k rest); auto.
    now apply dict_get_set_other.
Qed.

(** Filling a dictionary from items with unique keys appends them. *)
Lemma dict_update_append d items :
  dict_wf (d ++ items) -> dict_update d items = (d ++ items)%list.
Proof.
  unfold dict_update, dict_wf, dict_keys. revert d.
  induction items as [|[k v] rest IH]; simpl; intros d Hwf.
  - now rewrite app_nil_r.
  - assert (Hout : ~ In k (dict_keys d)).
    { rewrite map_app in Hwf. simpl in Hwf.
      apply NoDup_remove_2 in Hwf. intros Hin. apply Hwf.
      apply in_or_app. now left. }
    rewrite dict_set_fresh by assumption.
    rewrite IH; rewrite <- app_assoc; simpl; auto.
Qed.

(** [{**a}] is a copy of [a]. *)
Lemma dict_copy a : dict_wf a -> dict_update [] a = a.
Proof. intros Hwf. now rewrite dict_update_append. Qed.

Lemma dict_unpack2_wf a b : dict_wf (dict_unpack2 a b).
Proof.
  unfold dict_unpack2. do 2 apply dict_update_wf. constructor.
Qed.

Lemma dict_unpack2_get k a b :
  dict_wf a -> dict_wf b ->
  dict_get k (dict_unpack2 a b) =
    match dict_get k b with
    | Some v => Some v
    | None => dict_get k a
    end.
Proof.
  intros Ha Hb. unfold dict_unpack2.
  rewrite dict_update_get by assumption.
  rewrite dict_copy by assumption. reflexivity.
Qed.

(** The keys of the update are all in the merged dictionary. *)
Lemma dict_update_keys k d items :
  In k (dict_keys items) -> In k (dict_keys (dict_update d items)).
Proof.
  unfold dict_update. revert d.
  induction items as [|[k0 v0] rest IH]; simpl; intros d Hin; [tauto|].
  destruct (in_dec string_dec k (dict_keys rest)) as [Hr|Hr]; auto.
  destruct Hin as [->|Hin]; [|contradiction].
  clear IH Hr. revert d.
  assert (G : forall d, In k (dict_keys d) ->
    In k (dict_keys (fold_left
      (fun acc kv => dict_set (fst kv) (snd kv) acc) rest d))).
  { induction rest as [|[k1 v1] rest IH]; simpl; intros d Hd; auto.
    apply IH. apply dict_keys_set. now right. }
  intros d. apply G. apply dict_keys_set. now left.
Qed.

End DictFacts.


(** ** [json.dumps] is injective *)

Section Serialisation.

Local Open Scope string_scope.

Lemma append_assoc (a b c : string) : (a ++ b) ++ c = a ++ (b ++ c).
Proof. induction a as [|x a IH]; simpl; congruence. Qed.

Lemma append_nil_r (a : string) : a ++ "" = a.
Proof. induction a as [|x a IH]; simpl; congruence. Qed.

Lemma json_dumps_arr xs : json_dumps (JArr xs) = "[" ++ dumps_elems xs ++ "]".
Proof. reflexivity. Qed.

Lemma json_dumps_obj items :
  json_dumps (JObj items) = "{" ++ dumps_members items ++ "}".
Proof. reflexivity. Qed.

(** Induction on JSON values, with the property at hand for the elements of
    a list and the values of a dictionary. *)
Lemma json_nested_ind (P : json -> Prop) :
  P JNull ->
  (forall b, P (JBool b)) ->
  (forall n, P (JNum n)) ->
  (forall s, P (JStr s)) ->
  (forall xs, Forall P xs -> P (JArr xs)) ->
  (forall items, Forall (fun kv => P (snd kv)) items -> P (JObj items)) ->
  forall j, P j.
Proof.
  intros HNull HBool HNum HStr HArr HObj.
  fix IH 1. intros [| b | n | s | xs | items].
  - exact HNull.
  - apply HBool.
  - apply HNum.
  - apply HStr.
  - apply HArr. induction xs as [|x xs IHxs]; constructor; [apply IH | exact IHxs].
  - apply HObj. induction items as [|[k v] items IHitems]; constructor;
      [apply IH | exact IHitems].
Qed.

(** *** Integers *)

Lemma string_of_uint_num_chars (d : Decimal.uint) :
  all_chars is_num_char (NilEmpty.string_of_uint d) = true.
Proof. induction d; simpl; auto. Qed.

Lemma dumps_int_num_chars n : all_chars is_num_char (dumps_int n) = true.
Proof.
  unfold dumps_int. destruct (Z.to_int n) as [d|d]; simpl.
  - destruct d; try reflexivity; apply (string_of_uint_num_chars (_ d)).
  - destruct d; try reflexivity; apply (string_of_uint_num_chars (_ d)).
Qed.

Lemma dumps_int_nonempty n : dumps_int n <> "".
Proof.
  unfold dumps_int. destruct (Z.to_int n) as [d|d]; simpl.
  - destruct d; discriminate.
  - discriminate.
Qed.

Lemma to_int_not_nil n :
  Z.to_int n <> Decimal.Pos Decimal.Nil /\ Z.to_int n <> Decimal.Neg Decimal.Nil.
Proof.
  split; intros H;
    pose proof (f_equal Z.of_int H) as H0; rewrite DecimalZ.of_to in H0;
    simpl in H0; subst n; vm_compute in H; discriminate.
Qed.

Lemma dumps_int_inj n n' : dumps_int n = dumps_int n' -> n = n'.
Proof.
  unfold dumps_int. intros H.
  apply (f_equal NilZero.int_of_string) in H.
  destruct (to_int_not_nil n), (to_int_not_nil n').
  rewrite !NilZero.isi in H by assumption.
  apply DecimalZ.to_int_inj. congruence.
Qed.

(** Text made of characters of a class, followed by text that starts
    outside the class, splits in one way. *)
Lemma span_unique (p : ascii -> bool) (s1 : string) : forall s2 r1 r2,
  all_chars p s1 = true -> all_chars p s2 = true ->
  match r1 with EmptyString => True | String c _ => p c = false end ->
  match r2 with EmptyString => True | String c _ => p c = false end ->
  s1 ++ r1 = s2 ++ r2 -> s1 = s2 /\ r1 = r2.
Proof.
  induction s1 as [|c s1 IH]; intros [|c2 s2] r1 r2 H1 H2 Hr1 Hr2 Heq;
    simpl in *.
  - auto.
  - subst r1. apply andb_prop in H2. destruct H2. congruence.
  - subst r2. apply andb_prop in H1. destruct H1. congruence.
  - inversion Heq; subst.
    apply andb_prop in H1. apply andb_prop in H2.
    destruct (IH s2 r1 r2) as [-> ->]; tauto.
Qed.

(** *** Strings *)

Lemma unescape_head_escape c x :
  unescape_head (escape_char c ++ x) = Some (c, x).
Proof.
  destruct c as [[] [] [] [] [] [] [] []]; reflexivity.
Qed.

Lemma escape_string_unique s : forall s' r r',
  escape_string s ++ String "034" r = escape_string s' ++ String "034" r' ->
  s = s' /\ r = r'.
Proof.
  induction s as [|c s IH]; intros [|c' s'] r r' H; simpl in H.
  - inversion H. auto.
  - rewrite append_assoc in H. apply (f_equal unescape_head) in H.
    rewrite unescape_head_escape in H. discriminate.
  - rewrite append_assoc in H. apply (f_equal unescape_head) in H.
    rewrite unescape_head_escape in H. discriminate.
  - rewrite !append_assoc in H. apply (f_equal unescape_head) in H.
    rewrite !unescape_head_escape in H. inversion H; subst.
    destruct (IH s' r r') as [-> ->]; auto.
Qed.

Lemma dumps_str_unique s s' r r' :
  dumps_str s ++ r = dumps_str s' ++ r' -> s = s' /\ r = r'.
Proof.
  unfold dumps_str. simpl. rewrite !append_assoc. simpl.
  intros H. inversion H. now apply escape_string_unique.
Qed.

(** *** Values *)

Lemma num_char_kind c : is_num_char c = true -> kind_char c = 3.
Proof.
  destruct c as [[] [] [] [] [] [] [] []]; intros H;
    solve [reflexivity | discriminate H].
Qed.

Lemma head_kind j r :
  exists c t, json_dumps j ++ r = String c t /\ kind_char c = kind j.
Proof.
  destruct j as [| [] | n | s | xs | items]; simpl;
    try (eexists; eexists; split; [reflexivity | reflexivity]).
  pose proof (dumps_int_num_chars n) as Hall.
  pose proof (dumps_int_nonempty n) as Hne.
  destruct (dumps_int n) as [|c t]; [congruence|].
  simpl in *. apply andb_prop in Hall. destruct Hall as [Hc _].
  exists c, (t ++ r). split; [reflexivity|]. now apply num_char_kind.
Qed.

Lemma dumps_kind_eq j j' r r' :
  json_dumps j ++ r = json_dumps j' ++ r' -> kind j = kind j'.
Proof.
  intros H.
  destruct (head_kind j r) as (c & t & Hc & Hk).
  destruct (head_kind j' r') as (c' & t' & Hc' & Hk').
  rewrite Hc, Hc' in H. inversion H; subst. congruence.
Qed.

(** No value starts with a character of kind [0], such as a closing
    bracket. *)
Lemma no_value_at c x j r :
  kind_char c = 0 -> String c x <> json_dumps j ++ r.
Proof.
  intros Hc H. destruct (head_kind j r) as (c' & t & Hc' & Hk).
  rewrite Hc' in H. inversion H; subst.
  destruct j; simpl in Hk; congruence.
Qed.

Lemma elems_unique xs :
  Forall unique_parse xs ->
  forall xs' r r',
    dumps_elems xs ++ String "]" r = dumps_elems xs' ++ String "]" r' ->
    xs = xs' /\ r = r'.
Proof.
  induction 1 as [|x t Hx _ IH]; intros [|x' t'] r r' H.
  - simpl in H. inversion H. auto.
  - exfalso. cbn [dumps_elems] in H. rewrite append_assoc in H.
    simpl in H. now apply no_value_at in H.
  - exfalso. cbn [dumps_elems] in H. rewrite append_assoc in H.
    simpl in H. symmetry in H. now apply no_value_at in H.
  - cbn [dumps_elems] in H. rewrite !append_assoc in H.
    apply Hx in H.
    + destruct H as [<- H].
      destruct t as [|y t], t' as [|y' t']; simpl in H.
      * inversion H. auto.
      * discriminate H.
      * discriminate H.
      * inversion H as [H'].
        destruct (IH (y' :: t') r r') as [Ht ->]; [exact H'|].
        rewrite Ht. auto.
    + destruct t; reflexivity.
    + destruct t'; reflexivity.
Qed.

Lemma members_unique items :
  Forall (fun kv => unique_parse (snd kv)) items ->
  forall items' r r',
    dumps_members items ++ String "}" r = dumps_members items' ++ String "}" r' ->
    items = items' /\ r = r'.
Proof.
  induction 1 as [|[k v] t Hv _ IH]; intros [|[k' v'] t'] r r' H.
  - simpl in H. inversion H. auto.
  - exfalso. cbn [dumps_members] in H. unfold dumps_str in H.
    simpl in H. discriminate H.
  - exfalso. cbn [dumps_members] in H. unfold dumps_str in H.
    simpl in H. discriminate H.
  - cbn [dumps_members] in H. rewrite !append_assoc in H.
    apply dumps_str_unique in H. destruct H as [<- H].
    simpl in H. inversion H as [H']. clear H.
    rewrite ?append_assoc in H'. cbn [snd] in Hv.
    apply Hv in H'.
    + destruct H' as [<- H].
      destruct t as [|y t], t' as [|y' t']; simpl in H.
      * inversion H. auto.
      * discriminate H.
      * discriminate H.
      * inversion H as [H'].
        destruct (IH (y' :: t') r r') as [Ht ->]; [exact H'|].
        rewrite Ht. auto.
    + destruct t; reflexivity.
    + destruct t'; reflexivity.
Qed.

Lemma json_dumps_unique_parse j : unique_parse j.
Proof.
  induction j as [| b | n | s | xs Hxs | items Hitems] using json_nested_ind;
    intros j' r r' Hr Hr' H;
    pose proof (dumps_kind_eq _ _ _ _ H) as Hk;
    destruct j' as [| b' | n' | s' | xs' | items']; try discriminate Hk;
    clear Hk.
  - simpl in H. inversion H. auto.
  - destruct b, b'; simpl in H; inversion H; auto.
  - cbn [json_dumps] in H.
    destruct (span_unique is_num_char (dumps_int n) (dumps_int n') r r')
      as [Hn ->]; auto using dumps_int_num_chars.
    apply dumps_int_inj in Hn. subst. auto.
  - cbn [json_dumps] in H. apply dumps_str_unique in H.
    destruct H as [-> ->]. auto.
  - rewrite !json_dumps_arr in H. rewrite !append_assoc in H.
    simpl in H. inversion H as [H'].
    destruct (elems_unique xs Hxs xs' r r' H') as [-> ->]. auto.
  - rewrite !json_dumps_obj in H. rewrite !append_assoc in H.
    simpl in H. inversion H as [H'].
    destruct (members_unique items Hitems items' r r' H') as [-> ->]. auto.
Qed.

(** Two values with the same serialisation are the same value. *)
Lemma json_dumps_inj j j' : json_dumps j = json_dumps j' -> j = j'.
Proof.
  intros H.
  destruct (json_dumps_unique_parse j j' "" "") as [Hj _]; simpl; auto.
  now rewrite !append_nil_r.
Qed.

(** Two dictionaries with the same serialisation have the same items in
    the same order. *)
Lemma dumps_dict_inj (a b : dict) : dumps_dict a = dumps_dict b -> a = b.
Proof.
  unfold dumps_dict. intros H. apply json_dumps_inj in H. congruence.
Qed.

End Serialisation.
(** ** The merge of [merge_into_access_token_payload] *)

Section MergeFacts.

Implicit Types (k : string) (v : json) (d base update : dict).

Lemma drop_step_cases update d k :
  drop_step update d k = if tombstoned update k then dict_del k d else d.
Proof.
  unfold drop_step, tombstoned. destruct (dict_get k update); auto.
Qed.

Lemma drop_loop_wf update ks d :
  dict_wf d -> dict_wf (fold_left (drop_step update) ks d).
Proof.
  revert d. induction ks as [|k0 ks IH]; simpl; intros d Hwf; auto.
  apply IH. rewrite drop_step_cases.
  destruct (tombstoned update k0); auto using dict_del_wf.
Qed.

Lemma drop_loop_absent update ks d k :
  dict_get k d = None -> dict_get k (fold_left (drop_step update) ks d) = None.
Proof.
  revert d. induction ks as [|k0 ks IH]; simpl; intros d Hnone; auto.
  apply IH. rewrite drop_step_cases.
  destruct (tombstoned update k0); auto.
  apply dict_get_None. intros Hin. apply dict_keys_del in Hin.
  apply dict_get_None in Hnone. contradiction.
Qed.

Lemma drop_loop_removed update ks d k :
  dict_wf d -> In k ks -> tombstoned update k = true ->
  dict_get k (fold_left (drop_step update) ks d) = None.
Proof.
  revert d. induction ks as [|k0 ks IH]; simpl; intros d Hwf Hin Ht; [tauto|].
  destruct (string_dec k0 k) as [->|Hne].
  - apply drop_loop_absent. rewrite drop_step_cases, Ht.
    now apply dict_get_del_same.
  - destruct Hin as [Heq|Hin]; [congruence|].
    apply IH; auto. rewrite drop_step_cases.
    destruct (tombstoned update k0); auto using dict_del_wf.
Qed.

Lemma drop_loop_kept update ks d k :
  tombstoned update k = false \/ ~ In k ks ->
  dict_get k (fold_left (drop_step update) ks d) = dict_get k d.
Proof.
  revert d. induction ks as [|k0 ks IH]; simpl; intros d Hk; auto.
  rewrite IH by tauto.
  rewrite drop_step_cases.
  destruct (tombstoned update k0) eqn:E; auto.
  apply dict_get_del_other. intros ->. destruct Hk as [Hk|Hk]; [congruence|tauto].
Qed.

Lemma merge_payload_wf base update : dict_wf (merge_payload base update).
Proof. apply drop_loop_wf, dict_unpack2_wf. Qed.

(** What the merged payload holds at a key of the update. *)
Lemma merge_payload_update_key base update k v :
  dict_wf update -> dict_get k update = Some v ->
  dict_get k (merge_payload base update) = if is_None v then None else Some v.
Proof.
  intros Hu Hk. unfold merge_payload, drop_tombstones.
  destruct (is_None v) eqn:Ev.
  - apply drop_loop_removed.
    + apply dict_unpack2_wf.
    + eapply dict_get_Some_In; eauto.
    + unfold tombstoned. now rewrite Hk.
  - rewrite drop_loop_kept by (left; unfold tombstoned; now rewrite Hk).
    unfold dict_unpack2. rewrite dict_update_get by assumption.
    now rewrite Hk.
Qed.

(** What it holds at any other key. *)
Lemma merge_payload_other_key base update k :
  dict_wf base -> dict_wf update -> dict_get k update = None ->
  dict_get k (merge_payload base update) = dict_get k base.
Proof.
  intros Hb Hu Hk. unfold merge_payload, drop_tombstones.
  rewrite drop_loop_kept by (left; unfold tombstoned; now rewrite Hk).
  rewrite dict_unpack2_get by assumption. now rewrite Hk.
Qed.

(** The [del] of the loop always finds its key, and the subscript
    [access_token_payload_update[k]] always finds [k]: the loop raises no
    [KeyError]. *)
Lemma drop_step_checked_present update d k :
  dict_get k update <> None -> dict_get k d <> None ->
  drop_step_checked update (Some d) k = Some (drop_step update d k).
Proof.
  intros Hu Hd. unfold drop_step_checked, drop_step.
  destruct (dict_get k update) as [v|]; [|congruence].
  destruct (is_None v); auto.
  destruct (dict_get k d); [reflexivity|congruence].
Qed.

Lemma drop_loop_checked update ks d :
  NoDup ks ->
  (forall k, In k ks -> dict_get k update <> None /\ dict_get k d <> None) ->
  fold_left (drop_step_checked update) ks (Some d)
  = Some (fold_left (drop_step update) ks d).
Proof.
  revert d. induction ks as [|k0 ks IH]; intros d Hnd Hpres; auto.
  inversion Hnd as [|? ? Hnotin Hnd']; subst.
  destruct (Hpres k0 (or_introl eq_refl)) as [Hu Hd].
  cbn [fold_left]. rewrite drop_step_checked_present by assumption.
  apply IH; auto. intros k Hin.
  destruct (Hpres k (or_intror Hin)) as [Hu' Hd'].
  split; auto. rewrite drop_step_cases.
  destruct (tombstoned update k0); auto.
  rewrite dict_get_del_other; auto.
  intros ->. contradiction.
Qed.

Lemma merge_del_key_present base update :
  dict_wf update ->
  drop_tombstones_checked update (dict_unpack2 base update)
  = Some (merge_payload base update).
Proof.
  intros Hu. unfold drop_tombstones_checked, merge_payload, drop_tombstones.
  apply drop_loop_checked; auto.
  intros k Hin. split.
  - intros Hnone. apply dict_get_None in Hnone. contradiction.
  - intros Hnone. apply dict_get_None in Hnone. apply Hnone.
    unfold dict_unpack2. now apply dict_update_keys.
Qed.

End MergeFacts.

(** ** Runs of the methods *)

Arguments dumps_dict : simpl never.
Arguments merge_payload : simpl never.

Ltac run_monad :=
  unfold bind, ret, raise, emit, get_self, put_self, getitem,
    get_access_token_payload, get_user_id; simpl.

Lemma for_each_app {A S} (xs ys : list A) (body : A -> S -> M S) (s : S) w :
  for_each (xs ++ ys) body s w =
    match for_each xs body s w with
    | (inl e, w') => (inl e, w')
    | (inr s', w') => for_each ys body s' w'
    end.
Proof.
  revert s w. induction xs as [|x xs IH]; intros s w; simpl.
  - reflexivity.
  - unfold bind. destruct (body x s w) as [[e|s'] w']; auto.
Qed.

(** One iteration of the loop, in closed form. *)
Lemma check_validator_run uc v p errs w :
  check_validator uc v (p, errs) w =
    let uid := user_id (self w) in
    let w' := {| self := self w;
                 calls := calls w ++ iteration_calls uid uc v p |} in
    match verdict uc v (refetched uid uc v p) with
    | inr es => (inr (refetched uid uc v p, errs ++ es), w')
    | inl e => (inl e, w')
    end.
Proof.
  unfold check_validator, refetch_claim, verdict, reported_invalid,
    iteration_calls, refetched.
  run_monad.
  destruct (claim v) as [c|]; simpl.
  - destruct (should_refetch v p uc); simpl.
    + destruct (is_None (fetch_value c (user_id (self w)) uc)); simpl;
        repeat rewrite <- app_assoc; simpl;
        match goal with
        | |- context [validate v ?q uc] =>
            destruct (negb match dict_get "isValid" (validate v q uc) with
                           | Some x => truthy x | None => false end);
            [destruct (dict_get "reason" (validate v q uc))|];
            simpl; rewrite ?app_nil_r; reflexivity
        end.
    + repeat rewrite <- app_assoc; simpl.
      destruct (negb match dict_get "isValid" (validate v p uc) with
                     | Some x => truthy x | None => false end);
        [destruct (dict_get "reason" (validate v p uc))|];
        simpl; rewrite ?app_nil_r; reflexivity.
  - destruct (negb match dict_get "isValid" (validate v p uc) with
                   | Some x => truthy x | None => false end);
      [destruct (dict_get "reason" (validate v p uc))|];
      simpl; rewrite ?app_nil_r; reflexivity.
Qed.

Lemma verdict_exn uc v shown e :
  verdict uc v shown = inl e -> e = KeyError "reason".
Proof.
  unfold verdict. destruct (reported_invalid _); [|discriminate].
  destruct (dict_get "reason" _); [discriminate|]. congruence.
Qed.

Lemma working_after_snoc uid uc pre v p :
  working_after uid uc (pre ++ [v]) p
  = refetched uid uc v (working_after uid uc pre p).
Proof. unfold working_after. now rewrite fold_left_app. Qed.

Lemma pass_calls_cons uid uc p pre v rest :
  pass_calls uid uc p pre (v :: rest)
  = iteration_calls uid uc v (working_after uid uc pre p)
    ++ pass_calls uid uc p (pre ++ [v]) rest.
Proof. reflexivity. Qed.

Lemma pass_errors_cons uid uc p pre v rest :
  pass_errors uid uc p pre (v :: rest)
  = iteration_errors uid uc v (working_after uid uc pre p)
    ++ pass_errors uid uc p (pre ++ [v]) rest.
Proof. reflexivity. Qed.

(** The loop of [assert_claims] in closed form, from any point of the pass:
    [pre] are the validators already handled.  Either the loop runs to its
    end, or it stops at the first validator whose verdict raises. *)
Lemma pass_run uc p0 vs : forall pre errs w,
  let uid := user_id (self w) in
  match for_each vs (check_validator uc)
          (working_after uid uc pre p0, errs) w with
  | (inr (working, errs'), w') =>
      self w' = self w /\
      calls w' = calls w ++ pass_calls uid uc p0 pre vs /\
      errs' = errs ++ pass_errors uid uc p0 pre vs /\
      working = working_after uid uc (pre ++ vs) p0
  | (inl e, w') =>
      self w' = self w /\
      exists done v post,
        vs = done ++ v :: post /\
        e = KeyError "reason" /\
        verdict uc v (working_after uid uc (pre ++ done ++ [v]) p0) = inl e /\
        calls w' = calls w ++ pass_calls uid uc p0 pre (done ++ [v])
  end.
Proof.
  induction vs as [|v rest IH]; intros pre errs w uid.
  - simpl. unfold ret, pass_calls, pass_errors. simpl.
    now rewrite !app_nil_r.
  - cbn [for_each]. unfold bind. rewrite check_validator_run.
    fold uid. cbv zeta.
    destruct (verdict uc v (refetched uid uc v (working_after uid uc pre p0)))
      as [e|es] eqn:Ev.
    + split; [reflexivity|].
      exists [], v, rest. simpl. repeat split.
      * eapply verdict_exn; eauto.
      * now rewrite working_after_snoc.
      * unfold pass_calls. simpl. now rewrite app_nil_r.
    + rewrite <- working_after_snoc.
      specialize (IH (pre ++ [v]) (errs ++ es)
        {| self := self w;
           calls := calls w
                    ++ iteration_calls uid uc v (working_after uid uc pre p0) |}).
      cbn [self calls] in IH. fold uid in IH.
      destruct (for_each rest (check_validator uc) _ _) as [[e|[working errs']] w'].
      * destruct IH as [Hs (done & v' & post & -> & -> & Hv & Hc)].
        split; [assumption|].
        exists (v :: done), v', post. repeat split.
        -- rewrite <- Hv. f_equal. f_equal.
           now rewrite <- !app_assoc.
        -- rewrite Hc. simpl app. rewrite pass_calls_cons.
           now rewrite <- !app_assoc.
      * destruct IH as (Hs & Hc & He & Hw).
        repeat split; auto.
        -- rewrite Hc, pass_calls_cons. now rewrite <- !app_assoc.
        -- rewrite He, pass_errors_cons. unfold iteration_errors at 1.
           rewrite Ev. now rewrite <- !app_assoc.
        -- rewrite Hw. now rewrite <- !app_assoc.
Qed.

Lemma validation_pass_run vs uc p w :
  let uid := user_id (self w) in
  match validation_pass vs uc p w with
  | (inr (working, errs), w') =>
      self w' = self w /\
      calls w' = calls w ++ pass_calls uid uc p [] vs /\
      errs = pass_errors uid uc p [] vs /\
      working = working_after uid uc vs p
  | (inl e, w') =>
      self w' = self w /\
      exists done v post,
        vs = done ++ v :: post /\
        e = KeyError "reason" /\
        verdict uc v (working_after uid uc (done ++ [v]) p) = inl e /\
        calls w' = calls w ++ pass_calls uid uc p [] (done ++ [v])
  end.
Proof.
  intros uid. unfold validation_pass.
  exact (pass_run uc p vs [] [] w).
Qed.

Lemma update_access_token_payload_run p uc w :
  update_access_token_payload p uc w =
    let s := self w in
    let log := calls w ++ [EvRegenerate (access_token s) p] in
    match store_answer s p uc with
    | None =>
        (inl (UnauthorisedError "Session does not exist anymore."),
         {| self := s; calls := log |})
    | Some response =>
        (inr tt, {| self := acknowledged response s; calls := log |})
    end.
Proof.
  unfold update_access_token_payload, store_answer. run_monad.
  destruct (regenerate_access_token _ _ _ _) as [response|]; simpl; auto.
  unfold acknowledged.
  destruct (resp_access_token response) as [tok|]; reflexivity.
Qed.

Lemma merge_into_access_token_payload_run update uc w :
  merge_into_access_token_payload update uc w =
    let s := self w in
    let sent := merge_payload (access_token_payload s) update in
    let log := calls w ++ [EvMergeInto update;
                           EvRegenerate (access_token s) sent] in
    match store_answer s sent uc with
    | None =>
        (inl (UnauthorisedError "Session does not exist anymore."),
         {| self := s; calls := log |})
    | Some response =>
        (inr tt, {| self := acknowledged response s; calls := log |})
    end.
Proof.
  unfold merge_into_access_token_payload.
  unfold bind at 1. unfold emit at 1. cbn [fst snd].
  unfold bind at 1. unfold get_access_token_payload at 1.
  unfold bind at 1. unfold get_self, ret. cbn [self calls].
  rewrite update_access_token_payload_run. cbn [self calls].
  rewrite <- app_assoc. reflexivity.
Qed.

(** [assert_claims] as its three stages: the pass, the commit, the report. *)
Lemma assert_claims_run vs uc w :
  assert_claims vs uc w =
    let original := access_token_payload (self w) in
    match validation_pass vs uc original w with
    | (inl e, w1) => (inl e, w1)
    | (inr (working, errs), w1) =>
        match (if String.eqb (dumps_dict working) (dumps_dict original)
               then (inr tt, w1)
               else merge_into_access_token_payload working uc w1) with
        | (inl e, w2) => (inl e, w2)
        | (inr _, w2) =>
            match errs with
            | [] => (inr tt, w2)
            | _ :: _ => (inl (InvalidClaimsError "INVALID_CLAIMS" errs), w2)
            end
        end
    end.
Proof.
  unfold assert_claims.
  cbv beta iota zeta delta [bind ret raise get_self get_access_token_payload].
  destruct (validation_pass vs uc (access_token_payload (self w)) w)
    as [[e|[working errs]] w1]; auto.
  destruct (String.eqb (dumps_dict working)
              (dumps_dict (access_token_payload (self w)))); cbn [negb].
  - destruct errs; reflexivity.
  - destruct (merge_into_access_token_payload working uc w1) as [[e|[]] w2]; auto.
    destruct errs; reflexivity.
Qed.

Lemma nodupb_sound ks : nodupb ks = true -> NoDup ks.
Proof.
  induction ks as [|k rest IH]; simpl; intros H; constructor.
  - apply andb_prop in H. destruct H as [H _].
    intros Hin. apply negb_true_iff in H.
    assert (E : existsb (String.eqb k) rest = true).
    { apply existsb_exists. exists k. split; auto. apply String.eqb_refl. }
    congruence.
  - apply IH. apply andb_prop in H. tauto.
Qed.

Lemma dict_wfb_sound d : dict_wfb d = true -> dict_wf d.
Proof. apply nodupb_sound. Qed.

(** ** Store gateway: [update_access_token_payload] *)

(** C5.  When the store answers that the session is gone,
    [merge_into_access_token_payload] raises the unauthorised error with
    the message "Session does not exist anymore." and the session object is
    the one it was before the call: payload, token and token information
    are untouched.  The same holds of [update_access_token_payload]. *)
Theorem merge_into_session_gone (s : Session) (update : dict) (uc : user_context) :
  store_answer s (merge_payload (access_token_payload s) update) uc = None ->
  let r := merge_into_access_token_payload update uc (initial s) in
  outcome r = inl (UnauthorisedError "Session does not exist anymore.") /\
  final_self r = s /\
  access_token_payload (final_self r) = access_token_payload s /\
  access_token (final_self r) = access_token s /\
  new_access_token_info (final_self r) = new_access_token_info s /\
  (forall p, store_answer s p uc = None ->
     let r' := update_access_token_payload p uc (initial s) in
     outcome r' = inl (UnauthorisedError "Session does not exist anymore.") /\
     final_self r' = s).
Proof.
  intros Hgone r. subst r.
  rewrite merge_into_access_token_payload_run. cbn [initial self calls].
  cbv zeta. rewrite Hgone.
  unfold outcome, final_self. cbn [fst snd self].
  repeat split; auto.
  - rewrite update_access_token_payload_run. cbn [initial self calls].
    cbv zeta. rewrite H. reflexivity.
  - rewrite update_access_token_payload_run. cbn [initial self calls].
    cbv zeta. rewrite H. reflexivity.
Qed.

Lemma merge_into_session_gone_witness :
  let s := Sample.session_on Sample.gone_store in
  let r := merge_into_access_token_payload [("role", JStr "admin")] None
             (initial s) in
  outcome r = inl (UnauthorisedError "Session does not exist anymore.") /\
  final_self r = s.
Proof.
  pose proof (merge_into_session_gone (Sample.session_on Sample.gone_store)
                [("role", JStr "admin")] None eq_refl) as H.
  cbv zeta in *. destruct H as (H1 & H2 & _). split; assumption.
Defined.

(** C6.  Every call of [update_access_token_payload] that the store
    acknowledges replaces the session's payload by the payload of the
    response; it replaces the token and the token information, both, when
    the response carries a token, and leaves both as they were when it
    carries none.  A call the store does not acknowledge changes nothing, so
    the token never changes without the payload being set from the same
    response.  Through [merge_into_access_token_payload] the payload that is
    kept is again the one of the response, not the merge computed locally. *)
Theorem update_access_token_payload_commit
    (s : Session) (new_payload : dict) (uc : user_context) :
  let r := update_access_token_payload new_payload uc (initial s) in
  match store_answer s new_payload uc with
  | Some response =>
      outcome r = inr tt /\
      access_token_payload (final_self r) = user_data_in_jwt response /\
      match resp_access_token response with
      | Some tok =>
          access_token (final_self r) = token tok /\
          new_access_token_info (final_self r) = Some (token_info tok)
      | None =>
          access_token (final_self r) = access_token s /\
          new_access_token_info (final_self r) = new_access_token_info s
      end /\
      final_self r = acknowledged response s
  | None => final_self r = s
  end /\
  (forall update,
     let r' := merge_into_access_token_payload update uc (initial s) in
     match store_answer s (merge_payload (access_token_payload s) update) uc with
     | Some response =>
         outcome r' = inr tt /\ final_self r' = acknowledged response s /\
         access_token_payload (final_self r') = user_data_in_jwt response
     | None => final_self r' = s
     end).
Proof.
  intros r. subst r. split.
  - rewrite update_access_token_payload_run. cbn [initial self calls]. cbv zeta.
    destruct (store_answer s new_payload uc) as [response|]; [|reflexivity].
    unfold outcome, final_self. cbn [fst snd self].
    repeat split.
    unfold acknowledged. cbn [access_token new_access_token_info].
    destruct (resp_access_token response); split; reflexivity.
  - intros update r'. subst r'.
    rewrite merge_into_access_token_payload_run. cbn [initial self calls].
    cbv zeta.
    destruct (store_answer s _ uc) as [response|]; [|reflexivity].
    unfold outcome, final_self. cbn [fst snd self]. repeat split.
Qed.

(** ** Payload merge *)

Lemma store_calls_app l1 l2 :
  store_calls (l1 ++ l2) = store_calls l1 ++ store_calls l2.
Proof. unfold store_calls. apply flat_map_app. Qed.

Lemma merge_calls_app l1 l2 :
  merge_calls (l1 ++ l2) = merge_calls l1 ++ merge_calls l2.
Proof. unfold merge_calls. apply flat_map_app. Qed.

(** The calls of [merge_into_access_token_payload] from a fresh log: the
    call itself, then one call of the store with the merged payload. *)
Lemma merge_into_calls s update uc :
  final_calls (merge_into_access_token_payload update uc (initial s))
  = [EvMergeInto update;
     EvRegenerate (access_token s)
       (merge_payload (access_token_payload s) update)].
Proof.
  rewrite merge_into_access_token_payload_run. cbn [initial self calls].
  cbv zeta. destruct (store_answer s _ uc); reflexivity.
Qed.

(** C3.  The payload that [merge_into_access_token_payload] computes and
    hands to the store has no entry for a key that the update maps to the
    tombstone [None], whether or not the session's payload had the key, and
    maps every other key of the update to the value the update gives it; no
    key of the update is bound to the tombstone in the result.  The
    deletions of the loop all find their key. *)
Theorem merge_into_removes_tombstones
    (s : Session) (update : dict) (uc : user_context) :
  dict_wf update ->
  let base := access_token_payload s in
  let r := merge_into_access_token_payload update uc (initial s) in
  exists sent,
    store_calls (final_calls r) = [(access_token s, sent)] /\
    sent = merge_payload base update /\
    drop_tombstones_checked update (dict_unpack2 base update) = Some sent /\
    (forall k, dict_get k update = Some JNull -> dict_get k sent = None) /\
    (forall k v, dict_get k update = Some v -> v <> JNull ->
                 dict_get k sent = Some v) /\
    (forall k, In k (dict_keys update) -> dict_get k sent <> Some JNull).
Proof.
  intros Hu base r. exists (merge_payload base update).
  assert (Hset : forall k v, dict_get k update = Some v -> v <> JNull ->
                        dict_get k (merge_payload base update) = Some v).
  { intros k v Hk Hv.
    rewrite (merge_payload_update_key base update k v Hu Hk).
    destruct v; simpl; congruence. }
  assert (Hdel : forall k, dict_get k update = Some JNull ->
                      dict_get k (merge_payload base update) = None).
  { intros k Hk.
    now rewrite (merge_payload_update_key base update k JNull Hu Hk). }
  repeat split; auto.
  - subst r. now rewrite merge_into_calls.
  - now apply merge_del_key_present.
  - intros k Hin.
    destruct (dict_get k update) as [v|] eqn:Hk.
    + destruct v; try (rewrite (Hset k _ Hk); congruence).
      rewrite (Hdel k Hk). discriminate.
    + apply dict_get_None in Hk. contradiction.
Qed.

Lemma merge_into_removes_tombstones_witness :
  let s := Sample.session_on Sample.echo_store in
  let update := [("role", JNull); ("plan", JStr "pro"); ("gone", JNull)] in
  let r := merge_into_access_token_payload update None (initial s) in
  dict_wf update /\
  exists sent,
    store_calls (final_calls r) = [("t1", sent)] /\
    dict_get "role" sent = None /\
    dict_get "gone" sent = None /\
    dict_get "plan" sent = Some (JStr "pro").
Proof.
  cbv zeta.
  assert (Hwf : dict_wf [("role", JNull); ("plan", JStr "pro"); ("gone", JNull)])
    by (apply dict_wfb_sound; reflexivity).
  split; [exact Hwf|].
  destruct (merge_into_removes_tombstones
              (Sample.session_on Sample.echo_store)
              [("role", JNull); ("plan", JStr "pro"); ("gone", JNull)]
              None Hwf) as (sent & Hc & _ & _ & Hdel & Hset & _).
  exists sent. repeat split.
  - exact Hc.
  - apply Hdel. reflexivity.
  - apply Hdel. reflexivity.
  - apply Hset; [reflexivity | discriminate].
Defined.

(** *** The merge on objects *)

Lemma heap_put_length h l d : List.length (heap_put h l d) = List.length h.
Proof.
  revert l. induction h as [|x rest IH]; intros [|l]; simpl; auto.
Qed.

Lemma heap_get_put_same h l d :
  l < List.length h -> heap_get (heap_put h l d) l = Some d.
Proof.
  unfold heap_get. revert l.
  induction h as [|x rest IH]; intros [|l]; simpl; intros Hl;
    try lia; auto.
  apply IH. lia.
Qed.

Lemma heap_get_put_other h l l' d :
  l <> l' -> heap_get (heap_put h l' d) l = heap_get h l.
Proof.
  unfold heap_get. revert l l'.
  induction h as [|x rest IH]; intros [|l] [|l']; simpl; intros Hne;
    try congruence; auto.
Qed.

(** The loop on the heap only writes to the new object, which ends up
    holding what the loop on values computes. *)
Lemma del_loop_objects upd new u ks : forall h p,
  upd <> new ->
  heap_get h upd = Some u ->
  heap_get h new = Some p ->
  let h' := fold_left (del_if_tombstone upd new) ks h in
  List.length h' = List.length h /\
  (forall l, l <> new -> heap_get h' l = heap_get h l) /\
  heap_get h' new = Some (fold_left (drop_step u) ks p).
Proof.
  induction ks as [|k ks IH]; intros h p Hne Hu Hp h'; subst h';
    cbn [fold_left].
  - auto.
  - assert (Hlen : new < List.length h).
    { apply nth_error_Some. unfold heap_get in Hp. congruence. }
    assert (Hstep : del_if_tombstone upd new h k
                    = if tombstoned u k
                      then heap_put h new (dict_del k p) else h)
      by (unfold del_if_tombstone; now rewrite Hu, Hp).
    rewrite Hstep, drop_step_cases. clear Hstep.
    destruct (tombstoned u k).
    + assert (Hu' : heap_get (heap_put h new (dict_del k p)) upd = Some u)
        by (rewrite heap_get_put_other; assumption).
      assert (Hp' : heap_get (heap_put h new (dict_del k p)) new
                    = Some (dict_del k p))
        by (apply heap_get_put_same; assumption).
      destruct (IH _ _ Hne Hu' Hp') as (Hl & Hframe & Hnew).
      repeat split; auto.
      * now rewrite Hl, heap_put_length.
      * intros l Hl'. rewrite Hframe by assumption.
        now apply heap_get_put_other.
    + now apply IH.
Qed.

Lemma merge_objects_run h base upd b u :
  heap_get h base = Some b ->
  heap_get h upd = Some u ->
  exists h',
    merge_objects h base upd = Some (h', List.length h) /\
    (forall l, l < List.length h -> heap_get h' l = heap_get h l) /\
    heap_get h' (List.length h) = Some (merge_payload b u).
Proof.
  intros Hb Hu. unfold merge_objects. rewrite Hb, Hu.
  unfold heap_new.
  set (h1 := h ++ [dict_unpack2 b u]).
  assert (Hupd : upd < List.length h).
  { apply nth_error_Some. unfold heap_get in Hu. congruence. }
  assert (Hu1 : heap_get h1 upd = Some u).
  { unfold h1, heap_get. rewrite nth_error_app1 by assumption. exact Hu. }
  assert (Hn1 : heap_get h1 (List.length h) = Some (dict_unpack2 b u)).
  { unfold h1, heap_get. rewrite nth_error_app2 by lia.
    now rewrite Nat.sub_diag. }
  destruct (del_loop_objects upd (List.length h) u (dict_keys u) h1
              (dict_unpack2 b u) ltac:(lia) Hu1 Hn1) as (Hl & Hframe & Hnew).
  eexists. split; [reflexivity|]. split.
  - intros l Hl'. rewrite Hframe by lia.
    unfold h1, heap_get. now apply nth_error_app1.
  - exact Hnew.
Qed.

(** C9.  Merging the empty update into a payload gives a payload equal to
    it, key for key and in the same order, and that payload is what
    [merge_into_access_token_payload] then hands to the store; on objects
    the merge writes only to the dictionary it creates: the base object and
    the update object hold afterwards what they held before, also when they
    are one and the same object. *)
Theorem merge_empty_update_identity (payload : dict) :
  dict_wf payload ->
  merge_payload payload [] = payload /\
  (forall s uc, access_token_payload s = payload ->
     store_calls (final_calls
                    (merge_into_access_token_payload [] uc (initial s)))
     = [(access_token s, payload)]) /\
  (forall h base upd update,
     heap_get h base = Some payload ->
     heap_get h upd = Some update ->
     exists h' new,
       merge_objects h base upd = Some (h', new) /\
       heap_get h' new = Some (merge_payload payload update) /\
       new <> base /\ new <> upd /\
       heap_get h' base = Some payload /\
       heap_get h' upd = Some update /\
       (forall l, l < List.length h -> heap_get h' l = heap_get h l)).
Proof.
  intros Hwf.
  assert (Hid : merge_payload payload [] = payload).
  { unfold merge_payload, drop_tombstones, dict_unpack2. simpl.
    now apply dict_copy. }
  split; [exact Hid|]. split.
  { intros s uc Hs. rewrite merge_into_calls, Hs, Hid. reflexivity. }
  intros h base upd update Hb Hu.
  assert (Hbase : base < List.length h).
  { apply nth_error_Some. unfold heap_get in Hb. congruence. }
  assert (Hupd : upd < List.length h).
  { apply nth_error_Some. unfold heap_get in Hu. congruence. }
  destruct (merge_objects_run h base upd payload update Hb Hu)
    as (h' & Hrun & Hframe & Hnew).
  exists h', (List.length h). repeat split; auto; try lia.
  - now rewrite Hframe.
  - now rewrite Hframe.
Qed.

Lemma merge_empty_update_identity_witness :
  let payload := [("role", JStr "user"); ("sub", JStr "u1")] in
  let update := [("role", JNull)] in
  dict_wf payload /\
  merge_payload payload [] = payload /\
  exists h' new,
    merge_objects [payload; update] 0 1 = Some (h', new) /\
    heap_get h' new = Some [("sub", JStr "u1")] /\
    heap_get h' 0 = Some payload /\
    heap_get h' 1 = Some update.
Proof.
  cbv zeta.
  assert (Hwf : dict_wf [("role", JStr "user"); ("sub", JStr "u1")])
    by (apply dict_wfb_sound; reflexivity).
  split; [exact Hwf|].
  destruct (merge_empty_update_identity _ Hwf) as (Hid & _ & Hobj).
  split; [exact Hid|].
  destruct (Hobj [[("role", JStr "user"); ("sub", JStr "u1")]; [("role", JNull)]]
              0 1 [("role", JNull)] eq_refl eq_refl)
    as (h' & new & Hrun & Hnew & _ & _ & Hb & Hu & _).
  exists h', new. repeat split; assumption.
Defined.

(** ** Claim removal *)

(** C8, as the class has it.  For a claim whose removal update holds
    nothing but tombstones, [remove_claim] calls
    [merge_into_access_token_payload] with that update, and the store is
    called once, with the merged payload: it has none of the update's keys
    and has every other key of the session's payload unchanged.  The update
    map itself does not reach the store.  When the store acknowledges, the
    session's payload is the one of the response. *)
Theorem remove_claim_sends_merged_payload
    (s : Session) (c : SessionClaim) (uc : user_context) :
  let update := remove_from_payload_by_merge_ c [] (default_context uc) in
  dict_wf update ->
  (forall k v, dict_get k update = Some v -> v = JNull) ->
  let r := remove_claim c uc (initial s) in
  let sent := merge_payload (access_token_payload s) update in
  final_calls r = [EvMergeInto update; EvRegenerate (access_token s) sent] /\
  (forall k, In k (dict_keys update) -> dict_get k sent = None) /\
  (dict_wf (access_token_payload s) ->
   forall k, ~ In k (dict_keys update) ->
             dict_get k sent = dict_get k (access_token_payload s)) /\
  match store_answer s sent (default_context uc) with
  | Some response =>
      outcome r = inr tt /\
      access_token_payload (final_self r) = user_data_in_jwt response
  | None =>
      outcome r = inl (UnauthorisedError "Session does not exist anymore.") /\
      final_self r = s
  end.
Proof.
  intros update Hwf Htomb r sent. subst r. unfold remove_claim. fold update.
  split; [apply merge_into_calls|]. split; [|split].
  - intros k Hin. destruct (dict_get k update) as [v|] eqn:Hk.
    + pose proof (Htomb k v Hk) as ->.
      unfold sent.
      now rewrite (merge_payload_update_key _ update k JNull Hwf Hk).
    + apply dict_get_None in Hk. contradiction.
  - intros Hbase k Hout. apply merge_payload_other_key; auto.
    now apply dict_get_None.
  - rewrite merge_into_access_token_payload_run. cbn [initial self calls].
    cbv zeta. fold sent.
    destruct (store_answer s sent (default_context uc)); split; reflexivity.
Qed.

Lemma remove_claim_sends_merged_payload_witness :
  let s := Sample.session_on Sample.echo_store in
  let r := remove_claim Sample.role_claim None (initial s) in
  final_calls r = [EvMergeInto [("role", JNull)];
                   EvRegenerate "t1" [("sub", JStr "u1")]] /\
  outcome r = inr tt /\
  access_token_payload (final_self r) = [("sub", JStr "u1")].
Proof.
  cbv zeta.
  assert (Hwf : dict_wf (remove_from_payload_by_merge_ Sample.role_claim []
                           (default_context None)))
    by (apply dict_wfb_sound; reflexivity).
  assert (Htomb : forall k v,
             dict_get k (remove_from_payload_by_merge_ Sample.role_claim []
                           (default_context None)) = Some v -> v = JNull).
  { intros k v. simpl. destruct (String.eqb k "role"); congruence. }
  destruct (remove_claim_sends_merged_payload
              (Sample.session_on Sample.echo_store) Sample.role_claim None
              Hwf Htomb) as (Hcalls & _ & _ & Hstore).
  split; [exact Hcalls|]. exact Hstore.
Defined.

(** C8, as stated, fails: removing the claim that owns ["role"] from the
    payload [{"role": "user", "sub": "u1"}] reaches the store with the
    payload [{"sub": "u1"}]; no call of the store carries ["role"] bound to
    the tombstone. *)
Lemma remove_claim_store_gets_no_tombstone :
  let s := Sample.session_on Sample.echo_store in
  let r := remove_claim Sample.role_claim None (initial s) in
  remove_from_payload_by_merge_ Sample.role_claim [] (Some [])
    = [("role", JNull)] /\
  store_calls (final_calls r) = [("t1", [("sub", JStr "u1")])] /\
  ~ (exists t p, In (t, p) (store_calls (final_calls r)) /\
                 dict_get "role" p = Some JNull).
Proof.
  cbv zeta. split; [reflexivity|]. split; [reflexivity|].
  intros (t & p & Hin & Hrole).
  vm_compute in Hin. destruct Hin as [Heq|[]].
  inversion Heq; subst. discriminate.
Qed.

(** ** The validation pass *)

Lemma with_prefix_app {A} (pre xs ys : list A) :
  with_prefix pre (xs ++ ys)
  = with_prefix pre xs ++ with_prefix (pre ++ xs) ys.
Proof.
  revert pre. induction xs as [|x xs IH]; intros pre; simpl.
  - now rewrite app_nil_r.
  - rewrite IH. now rewrite <- app_assoc.
Qed.

(** [with_prefix] lists the splits of the list, first element first. *)
Lemma with_prefix_splits {A} (xs : list A) (before : list A) (x : A) :
  In (before, x) (with_prefix [] xs) <->
  exists done post, xs = done ++ x :: post /\ before = done.
Proof.
  assert (G : forall pre (ys : list A),
    In (before, x) (with_prefix pre ys) <->
    exists done post, ys = done ++ x :: post /\ before = pre ++ done).
  { intros pre ys. revert pre.
    induction ys as [|y ys IH]; intros pre; simpl.
    - split; [tauto|]. intros (done & post & H & _).
      destruct done; discriminate.
    - rewrite IH. split.
      + intros [Heq|(done & post & -> & ->)].
        * inversion Heq; subst. exists [], ys. now rewrite app_nil_r.
        * exists (y :: done), post. now rewrite <- app_assoc.
      + intros (done & post & Hys & ->). destruct done as [|d done].
        * simpl in Hys. inversion Hys; subst. left. now rewrite app_nil_r.
        * simpl in Hys. inversion Hys; subst. right.
          exists done, post. now rewrite <- app_assoc. }
  apply G.
Qed.

Lemma pass_calls_app uid uc p pre xs ys :
  pass_calls uid uc p pre (xs ++ ys)
  = pass_calls uid uc p pre xs ++ pass_calls uid uc p (pre ++ xs) ys.
Proof. unfold pass_calls. now rewrite with_prefix_app, flat_map_app. Qed.

Lemma pass_calls_last uid uc p xs v :
  pass_calls uid uc p [] (xs ++ [v])
  = pass_calls uid uc p [] xs
    ++ iteration_calls uid uc v (working_after uid uc xs p).
Proof.
  rewrite pass_calls_app. unfold pass_calls at 2. simpl.
  now rewrite app_nil_r.
Qed.

(** The pass itself neither merges nor calls the store. *)
Lemma iteration_calls_quiet uid uc v p :
  merge_calls (iteration_calls uid uc v p) = [] /\
  store_calls (iteration_calls uid uc v p) = [].
Proof.
  unfold iteration_calls.
  destruct (claim v); [destruct (should_refetch v p uc)|]; split; reflexivity.
Qed.

Lemma pass_calls_quiet uid uc p pre vs :
  merge_calls (pass_calls uid uc p pre vs) = [] /\
  store_calls (pass_calls uid uc p pre vs) = [].
Proof.
  unfold pass_calls. revert pre.
  induction vs as [|v vs IH]; intros pre; simpl; [auto|].
  rewrite merge_calls_app, store_calls_app.
  destruct (iteration_calls_quiet uid uc v (working_after uid uc pre p)) as [-> ->].
  apply IH.
Qed.

Lemma working_after_no_refetch uid uc vs p :
  Forall (fun v => refetch_triggered uc v p = false) vs ->
  working_after uid uc vs p = p.
Proof.
  unfold working_after.
  induction 1 as [|v vs Hv _ IH]; simpl; auto.
  replace (refetched uid uc v p) with p; auto.
  unfold refetched, refetch_triggered in *.
  destruct (claim v); auto. now rewrite Hv.
Qed.

(** C7.  When no validator of the list asks for a refetch of its claim on
    the session's payload, which is then the working payload all along,
    [assert_claims] never calls [merge_into_access_token_payload] nor the
    store, and the session object is unchanged at the end, whether the call
    returns, raises the invalid-claims error or raises otherwise. *)
Theorem assert_claims_no_spurious_commit
    (s : Session) (vs : list SessionClaimValidator) (uc : user_context) :
  Forall (fun v => refetch_triggered uc v (access_token_payload s) = false) vs ->
  let r := assert_claims vs uc (initial s) in
  merge_calls (final_calls r) = [] /\
  store_calls (final_calls r) = [] /\
  final_self r = s /\
  access_token_payload (final_self r) = access_token_payload s /\
  access_token (final_self r) = access_token s /\
  new_access_token_info (final_self r) = new_access_token_info s.
Proof.
  intros Hno r.
  assert (G : merge_calls (final_calls r) = [] /\
              store_calls (final_calls r) = [] /\ final_self r = s).
  { subst r. rewrite assert_claims_run. cbn [initial self]. cbv zeta.
    pose proof (validation_pass_run vs uc (access_token_payload s) (initial s))
      as Hpass. cbv zeta in Hpass. cbn [initial self calls] in Hpass.
    destruct (validation_pass vs uc (access_token_payload s) (initial s))
      as [[e|[working errs]] w1].
    - destruct Hpass as (Hs & done & v & post & _ & _ & _ & Hc).
      unfold final_calls, final_self. cbn [fst snd]. rewrite Hc, Hs.
      cbn [app]. destruct (pass_calls_quiet (user_id s) uc
                             (access_token_payload s) [] (done ++ [v])).
      auto.
    - destruct Hpass as (Hs & Hc & _ & Hw).
      rewrite working_after_no_refetch in Hw by assumption. subst working.
      rewrite String.eqb_refl.
      assert (Hquiet : merge_calls (calls w1) = [] /\
                       store_calls (calls w1) = [] /\ self w1 = s).
      { rewrite Hc, Hs. cbn [app].
        destruct (pass_calls_quiet (user_id s) uc
                    (access_token_payload s) [] vs). auto. }
      destruct errs; exact Hquiet. }
  destruct G as (G1 & G2 & G3). rewrite G3. repeat split; auto.
Qed.

Lemma assert_claims_no_spurious_commit_witness :
  let s := Sample.session_on Sample.echo_store in
  let r := assert_claims [Sample.admin_only; Sample.rejecting] None (initial s) in
  merge_calls (final_calls r) = [] /\
  store_calls (final_calls r) = [] /\
  final_self r = s.
Proof.
  cbv zeta.
  assert (Hno : Forall
            (fun v => refetch_triggered None v
                        (access_token_payload
                           (Sample.session_on Sample.echo_store)) = false)
            [Sample.admin_only; Sample.rejecting])
    by (repeat constructor).
  destruct (assert_claims_no_spurious_commit
              (Sample.session_on Sample.echo_store)
              [Sample.admin_only; Sample.rejecting] None Hno)
    as (H1 & H2 & H3 & _).
  repeat split; assumption.
Defined.

(** A pass over [pre ++ v :: post] whose part over [pre] runs to its end
    and whose validator [v] raises stops there. *)
Lemma validation_pass_stops pre v post uc p w working errs w1 e :
  validation_pass pre uc p w = (inr (working, errs), w1) ->
  verdict uc v (refetched (user_id (self w)) uc v working) = inl e ->
  validation_pass (pre ++ v :: post) uc p w
  = (inl e, {| self := self w;
               calls := calls w
                        ++ pass_calls (user_id (self w)) uc p [] (pre ++ [v]) |}).
Proof.
  intros Hpre Hv.
  pose proof (validation_pass_run pre uc p w) as Hrun. cbv zeta in Hrun.
  rewrite Hpre in Hrun. destruct Hrun as (Hs & Hc & _ & Hw).
  unfold validation_pass in *. rewrite for_each_app, Hpre.
  cbn [for_each]. unfold bind. rewrite check_validator_run. cbv zeta.
  rewrite Hs, Hv. f_equal. f_equal.
  rewrite Hc, pass_calls_last, <- Hw. now rewrite <- app_assoc.
Qed.

(** C10.  When the validators before [v] have been handled and [v]'s
    result, on the payload it is shown, is not valid and has no ["reason"]
    entry, [assert_claims] raises [KeyError] for ["reason"]: the subscript on
    the failing branch raises, no error is recorded for [v], no validator
    after [v] is consulted, and nothing is merged or sent to the store. *)
Theorem assert_claims_missing_reason
    (s : Session) (pre : list SessionClaimValidator) (v : SessionClaimValidator)
    (post : list SessionClaimValidator) (uc : user_context)
    (working : dict) (errs : list ClaimValidationError) :
  outcome (validation_pass pre uc (access_token_payload s) (initial s))
    = inr (working, errs) ->
  let shown := refetched (user_id s) uc v working in
  reported_invalid (validate v shown uc) = true ->
  dict_get "reason" (validate v shown uc) = None ->
  let r := assert_claims (pre ++ v :: post) uc (initial s) in
  outcome r = inl (KeyError "reason") /\
  final_calls r
    = pass_calls (user_id s) uc (access_token_payload s) [] (pre ++ [v]) /\
  merge_calls (final_calls r) = [] /\
  store_calls (final_calls r) = [].
Proof.
  intros Hpre shown Hinvalid Hreason r.
  assert (Hv : verdict uc v shown = inl (KeyError "reason")).
  { unfold verdict. now rewrite Hinvalid, Hreason. }
  destruct (validation_pass pre uc (access_token_payload s) (initial s))
    as [res w1] eqn:Hrun.
  unfold outcome in Hpre. cbn [fst] in Hpre. subst res.
  pose proof (validation_pass_stops pre v post uc (access_token_payload s)
                (initial s) working errs w1 (KeyError "reason") Hrun Hv)
    as Hstop.
  cbn [initial self calls app] in Hstop.
  assert (Hr : r = (inl (KeyError "reason"),
                    {| self := s;
                       calls := pass_calls (user_id s) uc
                                  (access_token_payload s) [] (pre ++ [v]) |})).
  { subst r. rewrite assert_claims_run. cbn [initial self]. cbv zeta.
    fold (initial s). now rewrite Hstop. }
  rewrite Hr. unfold outcome, final_calls. cbn [fst snd calls].
  destruct (pass_calls_quiet (user_id s) uc (access_token_payload s) []
              (pre ++ [v])) as [Hm Hst].
  repeat split; auto.
Qed.

Lemma assert_claims_missing_reason_witness :
  let s := Sample.session_on Sample.echo_store in
  let r := assert_claims
             [Sample.refreshing Sample.role_claim; Sample.silent;
              Sample.rejecting] None (initial s) in
  outcome r = inl (KeyError "reason") /\
  final_calls r
    = [EvShouldRefetch "refresh" [("role", JStr "user"); ("sub", JStr "u1")];
       EvFetchValue "refresh" "u1";
       EvValidate "refresh" [("role", JStr "admin"); ("sub", JStr "u1")];
       EvValidate "silent" [("role", JStr "admin"); ("sub", JStr "u1")]] /\
  store_calls (final_calls r) = [].
Proof.
  cbv zeta.
  destruct (assert_claims_missing_reason
              (Sample.session_on Sample.echo_store)
              [Sample.refreshing Sample.role_claim] Sample.silent
              [Sample.rejecting] None
              [("role", JStr "admin"); ("sub", JStr "u1")] []
              eq_refl eq_refl eq_refl)
    as (H1 & H2 & _ & H4).
  repeat split; assumption.
Defined.

Lemma pass_errors_app uid uc p pre xs ys :
  pass_errors uid uc p pre (xs ++ ys)
  = pass_errors uid uc p pre xs ++ pass_errors uid uc p (pre ++ xs) ys.
Proof. unfold pass_errors. now rewrite with_prefix_app, flat_map_app. Qed.

(** [assert_claims] after a pass that ran to its end. *)
Lemma assert_claims_after_pass s vs uc working errs w1 :
  validation_pass vs uc (access_token_payload s) (initial s)
    = (inr (working, errs), w1) ->
  let sent := merge_payload (access_token_payload s) working in
  let log := calls w1 ++ [EvMergeInto working; EvRegenerate (access_token s) sent] in
  let report : exn + unit :=
    match errs with
    | [] => inr tt
    | _ :: _ => inl (InvalidClaimsError "INVALID_CLAIMS" errs)
    end in
  self w1 = s /\
  calls w1 = pass_calls (user_id s) uc (access_token_payload s) [] vs /\
  assert_claims vs uc (initial s) =
    if String.eqb (dumps_dict working) (dumps_dict (access_token_payload s))
    then (report, w1)
    else match store_answer s sent uc with
         | None =>
             (inl (UnauthorisedError "Session does not exist anymore."),
              {| self := s; calls := log |})
         | Some response =>
             (report, {| self := acknowledged response s; calls := log |})
         end.
Proof.
  intros Hpass sent log report.
  pose proof (validation_pass_run vs uc (access_token_payload s) (initial s))
    as Hrun. cbv zeta in Hrun. rewrite Hpass in Hrun.
  cbn [initial self calls app] in Hrun. destruct Hrun as (Hs & Hc & _ & _).
  split; [exact Hs|]. split; [exact Hc|].
  rewrite assert_claims_run. cbn [initial self]. cbv zeta.
  fold (initial s). rewrite Hpass.
  destruct (String.eqb (dumps_dict working)
              (dumps_dict (access_token_payload s))).
  - subst report. destruct errs; reflexivity.
  - rewrite merge_into_access_token_payload_run. cbv zeta. rewrite Hs.
    fold sent. fold log.
    destruct (store_answer s sent uc); [|reflexivity].
    subst report. destruct errs; reflexivity.
Qed.

(** ** Commit and report *)

(** The test of [assert_claims] on the two [json.dumps] texts is the test
    that the two dictionaries differ, in their items or in the order of
    their keys. *)
Lemma dumps_differ_iff (a b : dict) :
  String.eqb (dumps_dict a) (dumps_dict b) = false <-> a <> b.
Proof.
  rewrite String.eqb_neq. split.
  - intros H ->. now apply H.
  - intros H Heq. apply H. now apply dumps_dict_inj.
Qed.

(** A pass that runs to its end had a verdict from every validator: none
    of them raised. *)
Lemma pass_all_verdicts uc p0 vs : forall pre errs w res w',
  let uid := user_id (self w) in
  for_each vs (check_validator uc) (working_after uid uc pre p0, errs) w
  = (inr res, w') ->
  forall done v post,
    vs = done ++ v :: post ->
    exists es,
      verdict uc v (working_after uid uc (pre ++ done ++ [v]) p0) = inr es.
Proof.
  induction vs as [|x rest IH]; intros pre errs w res w' uid Hrun done v post Hvs.
  - destruct done; discriminate.
  - cbn [for_each] in Hrun. unfold bind in Hrun.
    rewrite check_validator_run in Hrun. fold uid in Hrun. cbv zeta in Hrun.
    destruct (verdict uc x (refetched uid uc x (working_after uid uc pre p0)))
      as [e|es] eqn:Ev; [discriminate|].
    rewrite <- working_after_snoc in Hrun, Ev.
    destruct done as [|d done]; simpl in Hvs; injection Hvs as <- Hrest.
    + exists es. exact Ev.
    + destruct (IH (pre ++ [x]) (errs ++ es)
                  {| self := self w;
                        calls := calls w
                                 ++ iteration_calls uid uc x
                                      (working_after uid uc pre p0) |}
                  res w' Hrun done v post Hrest)
        as (es' & Hes').
      cbn [self] in Hes'. fold uid in Hes'.
      exists es'. now rewrite <- app_assoc in Hes'.
Qed.

(** A pass that raises stops at the first validator whose verdict raises:
    the validators before it had a verdict, it has none, and the calls are
    those of the validators up to it. *)
Lemma pass_raise_first uc p0 vs : forall pre errs w e w',
  let uid := user_id (self w) in
  for_each vs (check_validator uc) (working_after uid uc pre p0, errs) w
  = (inl e, w') ->
  exists done v post,
    vs = done ++ v :: post /\
    verdict uc v (working_after uid uc (pre ++ done ++ [v]) p0) = inl e /\
    (forall d1 x d2,
       done = d1 ++ x :: d2 ->
       exists es,
         verdict uc x (working_after uid uc (pre ++ d1 ++ [x]) p0) = inr es) /\
    calls w' = calls w ++ pass_calls uid uc p0 pre (done ++ [v]).
Proof.
  induction vs as [|x rest IH]; intros pre errs w e w' uid Hrun.
  - discriminate Hrun.
  - cbn [for_each] in Hrun. unfold bind in Hrun.
    rewrite check_validator_run in Hrun. fold uid in Hrun. cbv zeta in Hrun.
    destruct (verdict uc x (refetched uid uc x (working_after uid uc pre p0)))
      as [e0|es] eqn:Ev; rewrite <- working_after_snoc in Ev.
    + injection Hrun as <- <-.
      exists [], x, rest. cbn [app calls]. repeat split; auto.
      * intros d1 y d2 H. destruct d1; discriminate H.
      * unfold pass_calls. simpl. now rewrite app_nil_r.
    + rewrite <- working_after_snoc in Hrun.
      destruct (IH (pre ++ [x]) (errs ++ es)
                  {| self := self w;
                        calls := calls w
                                 ++ iteration_calls uid uc x
                                      (working_after uid uc pre p0) |}
                  e w' Hrun)
        as (done & v & post & -> & Hv & Hbefore & Hc).
      cbn [self calls] in Hv, Hbefore, Hc. fold uid in Hv, Hbefore, Hc.
      exists (x :: done), v, post. repeat split.
      * rewrite <- Hv. f_equal. f_equal. now rewrite <- !app_assoc.
      * intros d1 y d2 H. destruct d1 as [|d d1]; simpl in H;
          injection H as <- Hrest.
        -- exists es. exact Ev.
        -- destruct (Hbefore d1 y d2 Hrest) as (es' & Hes').
           exists es'. now rewrite <- app_assoc in Hes'.
      * rewrite Hc. simpl app. rewrite pass_calls_cons.
        now rewrite <- !app_assoc.
Qed.

(** C4.  [assert_claims] handles the validators in list order.  The calls
    of the pass are those of the first validator, then those of the second,
    and so on; the validators before [v] are done when [v] is consulted,
    [v]'s [should_refetch] is shown the working payload they left, [v]'s
    [validate] that payload after [v]'s own refetch, and the validators
    after [v] come later.  The pass runs to its end exactly when every
    validator has a verdict; it then holds the entries of the failing
    validators, in list order, and [assert_claims] raises the invalid-claims
    error with exactly these entries whenever there is one, unless the
    commit of a changed payload fails for a session that is gone.  The pass
    stops only at the first validator whose verdict raises, for the missing
    ["reason"], after the calls of the validators up to that one, and
    [assert_claims] raises that error. *)
Theorem assert_claims_evaluation_order
    (s : Session) (vs : list SessionClaimValidator) (uc : user_context) :
  let uid := user_id s in
  let p0 := access_token_payload s in
  let pass := validation_pass vs uc p0 (initial s) in
  let r := assert_claims vs uc (initial s) in
  let verdict_at := fun (pre : list SessionClaimValidator) v =>
    verdict uc v (working_after uid uc (pre ++ [v]) p0) in
  match outcome pass with
  | inr (working, errs) =>
      final_calls pass = pass_calls uid uc p0 [] vs /\
      errs = pass_errors uid uc p0 [] vs /\
      working = working_after uid uc vs p0 /\
      (forall pre v post,
         vs = pre ++ v :: post -> exists es, verdict_at pre v = inr es) /\
      let sent :=
        merge_payload (access_token_payload (final_self pass)) working in
      let report : exn + unit :=
        match errs with
        | [] => inr tt
        | _ :: _ => inl (InvalidClaimsError "INVALID_CLAIMS" errs)
        end in
      (working = p0 ->
       outcome r = report /\ final_calls r = final_calls pass) /\
      (working <> p0 ->
       final_calls r
       = final_calls pass
         ++ [EvMergeInto working; EvRegenerate (access_token s) sent] /\
       outcome r
       = match store_answer s sent uc with
         | Some _ => report
         | None => inl (UnauthorisedError "Session does not exist anymore.")
         end)
  | inl e =>
      e = KeyError "reason" /\
      outcome r = inl e /\
      final_calls r = final_calls pass /\
      exists done v post,
        vs = done ++ v :: post /\
        verdict_at done v = inl e /\
        (forall d1 x d2,
           done = d1 ++ x :: d2 -> exists es, verdict_at d1 x = inr es) /\
        final_calls pass = pass_calls uid uc p0 [] (done ++ [v])
  end /\
  (forall pre v post, vs = pre ++ v :: post ->
     pass_calls uid uc p0 [] vs
     = pass_calls uid uc p0 [] pre
       ++ iteration_calls uid uc v (working_after uid uc pre p0)
       ++ pass_calls uid uc p0 (pre ++ [v]) post /\
     pass_errors uid uc p0 [] vs
     = pass_errors uid uc p0 [] pre
       ++ iteration_errors uid uc v (working_after uid uc pre p0)
       ++ pass_errors uid uc p0 (pre ++ [v]) post).
Proof.
  intros uid p0 pass r verdict_at.
  pose proof (validation_pass_run vs uc p0 (initial s)) as Hrun.
  cbv zeta in Hrun. cbn [initial self calls app] in Hrun.
  fold uid in Hrun. fold (initial s) in Hrun. fold pass in Hrun.
  split.
  2:{ intros pre v post ->. split.
      - now rewrite pass_calls_app, pass_calls_cons.
      - now rewrite pass_errors_app, pass_errors_cons. }
  destruct pass as [[e|[working errs]] w1] eqn:Hpass; subst pass;
    unfold outcome at 1; cbn [fst].
  - assert (Hr : r = (inl e, w1)).
    { subst r. rewrite assert_claims_run. cbn [initial self]. cbv zeta.
      fold (initial s). fold p0. now rewrite Hpass. }
    unfold validation_pass in Hpass.
    destruct (pass_raise_first uc p0 vs [] [] (initial s) e w1 Hpass)
      as (done & v & post & Hvs & Hv & Hbefore & Hc).
    cbn [initial self calls app] in Hv, Hbefore, Hc.
    fold uid in Hv, Hbefore, Hc.
    split; [eapply verdict_exn; exact Hv|].
    rewrite Hr. unfold outcome, final_calls. cbn [fst snd].
    split; [reflexivity|]. split; [reflexivity|].
    exists done, v, post. repeat split; assumption.
  - destruct Hrun as (Hs & Hc & He & Hw).
    destruct (assert_claims_after_pass s vs uc working errs w1 Hpass)
      as (_ & _ & Hr).
    fold r in Hr. fold p0 in Hr.
    unfold final_calls at 1. cbn [snd].
    split; [exact Hc|]. split; [exact He|]. split; [exact Hw|].
    split.
    { intros pre v post Hvs. unfold validation_pass in Hpass.
      exact (pass_all_verdicts uc p0 vs [] [] (initial s) (working, errs) w1
               Hpass pre v post Hvs). }
    unfold final_self. cbn [snd]. rewrite Hs. fold p0. cbv zeta.
    split.
    + intros Hsame. rewrite Hsame, String.eqb_refl in Hr.
      rewrite Hr. unfold outcome, final_calls. cbn [fst snd]. auto.
    + intros Hdiff. apply dumps_differ_iff in Hdiff. rewrite Hdiff in Hr.
      rewrite Hr. unfold outcome, final_calls.
      destruct (store_answer s (merge_payload p0 working) uc);
        cbn [fst snd calls]; auto.
Qed.

(** C2, as the class has it.  After a pass that ran to its end,
    [assert_claims] calls [merge_into_access_token_payload] exactly when the
    working payload is not the payload taken at entry, item for item and in
    the same key order; that is, exactly when their [json.dumps] texts
    differ.  It then calls it once, with the working payload.  The
    comparison is sensitive to the order of the keys. *)
Theorem assert_claims_merges_iff_payload_differs
    (s : Session) (vs : list SessionClaimValidator) (uc : user_context)
    (working : dict) (errs : list ClaimValidationError) :
  outcome (validation_pass vs uc (access_token_payload s) (initial s))
    = inr (working, errs) ->
  let r := assert_claims vs uc (initial s) in
  (merge_calls (final_calls r) <> [] <-> working <> access_token_payload s) /\
  (merge_calls (final_calls r) <> [] <->
   dumps_dict working <> dumps_dict (access_token_payload s)) /\
  (merge_calls (final_calls r) = [] \/ merge_calls (final_calls r) = [working]).
Proof.
  intros Hout r.
  destruct (validation_pass vs uc (access_token_payload s) (initial s))
    as [res w1] eqn:Hpass.
  unfold outcome in Hout. cbn [fst] in Hout. subst res.
  destruct (assert_claims_after_pass s vs uc working errs w1 Hpass)
    as (Hs & Hc & Hr).
  fold r in Hr.
  assert (Hquiet : merge_calls (calls w1) = []).
  { rewrite Hc. apply pass_calls_quiet. }
  assert (Hcalls : merge_calls (final_calls r)
            = if String.eqb (dumps_dict working)
                   (dumps_dict (access_token_payload s))
              then [] else [working]).
  { rewrite Hr. unfold final_calls.
    destruct (String.eqb (dumps_dict working)
                (dumps_dict (access_token_payload s))); cbn [snd].
    - exact Hquiet.
    - destruct (store_answer s _ uc); cbn [snd calls];
        rewrite merge_calls_app, Hquiet; reflexivity. }
  rewrite Hcalls.
  destruct (String.eqb (dumps_dict working)
              (dumps_dict (access_token_payload s))) eqn:E.
  - assert (Hsame : working = access_token_payload s)
      by (apply dumps_dict_inj; now apply String.eqb_eq).
    apply String.eqb_eq in E.
    split; [|split].
    + split; intros H; exfalso; [now apply H | now apply H].
    + split; intros H; exfalso; [now apply H | now apply H].
    + now left.
  - pose proof (proj1 (dumps_differ_iff _ _) E) as Hne.
    apply String.eqb_neq in E.
    split; [|split].
    + split; intros _; [exact Hne | discriminate].
    + split; intros _; [exact E | discriminate].
    + now right.
Qed.

Lemma assert_claims_merges_iff_payload_differs_witness :
  let s := Sample.session_on Sample.echo_store in
  let r := assert_claims [Sample.refreshing Sample.role_claim] None (initial s) in
  merge_calls (final_calls r) = [[("role", JStr "admin"); ("sub", JStr "u1")]].
Proof.
  cbv zeta.
  destruct (assert_claims_merges_iff_payload_differs
              (Sample.session_on Sample.echo_store)
              [Sample.refreshing Sample.role_claim] None
              [("role", JStr "admin"); ("sub", JStr "u1")] [] eq_refl)
    as (Hiff & _ & [Hnone|Hone]).
  - exfalso. apply (proj2 Hiff); [discriminate | exact Hnone].
  - exact Hone.
Defined.

(** C2, as stated, fails: a refetch that returns the payload with the same
    entries in another key order leaves a working payload that is deep-equal
    to the snapshot, and [assert_claims] still calls
    [merge_into_access_token_payload]. *)
Lemma assert_claims_merges_on_key_order :
  let s := Sample.session_on Sample.echo_store in
  let vs := [Sample.refreshing Sample.moving_claim] in
  let r := assert_claims vs None (initial s) in
  let working := [("sub", JStr "u1"); ("role", JStr "user")] in
  outcome (validation_pass vs None (access_token_payload s) (initial s))
    = inr (working, []) /\
  spec_dict_deep_eqb working (access_token_payload s) = true /\
  spec_dict_deep_eqb (access_token_payload s) working = true /\
  merge_calls (final_calls r) = [working].
Proof. cbv zeta. repeat split; vm_compute; reflexivity. Qed.

(** C1, as the class has it.  After a pass that ran to its end with a
    working payload that differs from the payload taken at entry and with
    at least one error, [assert_claims] calls
    [merge_into_access_token_payload] with the working payload, which calls
    the store once with the merge of the session's payload, as the pass
    left it, and the working payload, and only then reports.  When the store
    acknowledges, the session object holds the payload, the token and the
    token information of the response and the invalid-claims error is raised
    with the errors of the pass; when the store answers that the session is
    gone, the unauthorised error is raised instead of the invalid-claims
    error. *)
Theorem assert_claims_commits_before_report
    (s : Session) (vs : list SessionClaimValidator) (uc : user_context)
    (working : dict) (errs : list ClaimValidationError) :
  outcome (validation_pass vs uc (access_token_payload s) (initial s))
    = inr (working, errs) ->
  working <> access_token_payload s ->
  errs <> [] ->
  let pass := validation_pass vs uc (access_token_payload s) (initial s) in
  let r := assert_claims vs uc (initial s) in
  let sent := merge_payload (access_token_payload (final_self pass)) working in
  final_calls r
  = final_calls pass ++ [EvMergeInto working; EvRegenerate (access_token s) sent] /\
  merge_calls (final_calls r) = [working] /\
  store_calls (final_calls r) = [(access_token s, sent)] /\
  match store_answer s sent uc with
  | Some response =>
      outcome r = inl (InvalidClaimsError "INVALID_CLAIMS" errs) /\
      final_self r = acknowledged response s /\
      access_token_payload (final_self r) = user_data_in_jwt response
  | None =>
      outcome r = inl (UnauthorisedError "Session does not exist anymore.")
  end.
Proof.
  intros Hout Hdiff Herrs. cbv zeta.
  destruct (validation_pass vs uc (access_token_payload s) (initial s))
    as [res w1] eqn:Hpass.
  unfold outcome in Hout. cbn [fst] in Hout. subst res.
  destruct (assert_claims_after_pass s vs uc working errs w1 Hpass)
    as (Hs & Hc & Hr).
  change (final_self (@inr exn _ (working, errs), w1)) with (self w1).
  change (final_calls (@inr exn _ (working, errs), w1)) with (calls w1).
  rewrite Hs.
  set (r := assert_claims vs uc (initial s)) in *.
  set (sent := merge_payload (access_token_payload s) working) in *.
  apply dumps_differ_iff in Hdiff. rewrite Hdiff in Hr.
  destruct (pass_calls_quiet (user_id s) uc (access_token_payload s) [] vs)
    as [Hm Hst].
  rewrite <- Hc in Hm, Hst.
  rewrite Hr. unfold outcome, final_calls, final_self.
  destruct (store_answer s sent uc) as [response|]; cbn [fst snd self calls];
    rewrite merge_calls_app, store_calls_app, Hm, Hst; cbn [app].
  - repeat split; auto. destruct errs; [congruence|reflexivity].
  - repeat split; auto.
Qed.

Lemma assert_claims_commits_before_report_witness :
  let s := Sample.session_on Sample.quiet_store in
  let vs := [Sample.refreshing Sample.role_claim; Sample.rejecting] in
  let r := assert_claims vs None (initial s) in
  store_calls (final_calls r)
    = [("t1", [("role", JStr "admin"); ("sub", JStr "u1")])] /\
  outcome r = inl (InvalidClaimsError "INVALID_CLAIMS"
                     [{| cve_id := "reject"; cve_reason := JStr "rejected" |}]) /\
  access_token_payload (final_self r)
    = [("role", JStr "admin"); ("sub", JStr "u1")].
Proof.
  cbv zeta.
  assert (Hdiff : [("role", JStr "admin"); ("sub", JStr "u1")]
                  <> access_token_payload
                       (Sample.session_on Sample.quiet_store))
    by discriminate.
  assert (Herrs : [{| cve_id := "reject"; cve_reason := JStr "rejected" |}]
                  <> []) by discriminate.
  destruct (assert_claims_commits_before_report
              (Sample.session_on Sample.quiet_store)
              [Sample.refreshing Sample.role_claim; Sample.rejecting] None
              [("role", JStr "admin"); ("sub", JStr "u1")]
              [{| cve_id := "reject"; cve_reason := JStr "rejected" |}]
              eq_refl Hdiff Herrs) as (_ & _ & Hst & Hout & _ & Hp).
  repeat split; assumption.
Defined.

(** C1, as stated, fails: with a store in which the session is gone, a pass
    that refetched the role and collected one error ends in the unauthorised
    error, not the invalid-claims error, and the session still holds the
    payload it had at entry. *)
Lemma assert_claims_session_gone_loses_refresh :
  let s := Sample.session_on Sample.gone_store in
  let vs := [Sample.refreshing Sample.role_claim; Sample.rejecting] in
  let r := assert_claims vs None (initial s) in
  let working := [("role", JStr "admin"); ("sub", JStr "u1")] in
  outcome (validation_pass vs None (access_token_payload s) (initial s))
    = inr (working, [{| cve_id := "reject"; cve_reason := JStr "rejected" |}]) /\
  working <> access_token_payload s /\
  dumps_dict working <> dumps_dict (access_token_payload s) /\
  merge_calls (final_calls r) = [working] /\
  outcome r = inl (UnauthorisedError "Session does not exist anymore.") /\
  access_token_payload (final_self r)
    = [("role", JStr "user"); ("sub", JStr "u1")].
Proof.
  cbv zeta. repeat split; try (vm_compute; reflexivity).
  - discriminate.
  - vm_compute. discriminate.
Qed.

(** ** Scenarios

    The scenarios of the specification, run on the sample session
    [{"role": "user", "sub": "u1"}] with token ["t1"]. *)

(** One validator without a claim that accepts: the call succeeds and the
    session is unchanged. *)
Example scenario_plain_validator_accepts :
  let s := Sample.session_on Sample.echo_store in
  let accepting := Sample.refreshing Sample.role_claim in
  let plain := {| id := "plain"; claim := None;
                  should_refetch := should_refetch accepting;
                  validate := validate accepting |} in
  assert_claims [plain] None (initial s)
  = (inr tt, {| self := s;
                calls := [EvValidate "plain" (access_token_payload s)] |}).
Proof. reflexivity. Qed.

(** A validator that refetches the role and accepts: the payload is
    committed, token and token information come from the response. *)
Example scenario_refetch_then_accept :
  let s := Sample.session_on Sample.echo_store in
  let r := assert_claims [Sample.refreshing Sample.role_claim] None (initial s) in
  outcome r = inr tt /\
  access_token_payload (final_self r)
    = [("role", JStr "admin"); ("sub", JStr "u1")] /\
  access_token (final_self r) = "t2" /\
  new_access_token_info (final_self r)
    = Some [("token", JStr "t2"); ("expiry", JNum 3600);
            ("createdTime", JNum 100)].
Proof. cbv zeta. repeat split; vm_compute; reflexivity. Qed.

(** The order of the validators counts: the check of the role sees the
    refetched role only when the refetching validator comes first. *)
Example scenario_order_matters :
  let s := Sample.session_on Sample.echo_store in
  let refresh := Sample.refreshing Sample.role_claim in
  outcome (assert_claims [refresh; Sample.admin_only] None (initial s))
    = inr tt /\
  outcome (assert_claims [Sample.admin_only; refresh] None (initial s))
    = inl (InvalidClaimsError "INVALID_CLAIMS"
             [{| cve_id := "admin-only"; cve_reason := JStr "not admin" |}]).
Proof. cbv zeta. split; vm_compute; reflexivity. Qed.

(** A store that keeps the token: the payload is replaced, the token and
    the token information stay. *)
Example scenario_store_keeps_token :
  let s := Sample.session_on Sample.quiet_store in
  let r := update_access_token_payload [("sub", JStr "u1")] None (initial s) in
  outcome r = inr tt /\
  access_token_payload (final_self r) = [("sub", JStr "u1")] /\
  access_token (final_self r) = "t1" /\
  new_access_token_info (final_self r) = None.
Proof. cbv zeta. repeat split; vm_compute; reflexivity. Qed.

(** [json.dumps] on a payload with nested values. *)
Example scenario_dumps :
  dumps_dict [("role", JObj [("v", JStr "admin"); ("t", JNum (-12))]);
              ("tags", JArr [JNull; JBool true; JStr (String "010"%char "x")])]
  = String.concat ""
      ["{"; dumps_str "role"; ": {"; dumps_str "v"; ": "; dumps_str "admin";
       ", "; dumps_str "t"; ": -12}, "; dumps_str "tags";
       ": [null, true, "; String "034"%char "\nx"; String "034"%char "]}"].
Proof. vm_compute. reflexivity. Qed.

(** The specification's equality ignores the order of the keys and still
    tells values apart; the [json.dumps] texts of two orders differ. *)
Example scenario_key_order :
  let a := [("role", JStr "user"); ("sub", JStr "u1")] in
  let b := [("sub", JStr "u1"); ("role", JStr "user")] in
  let c := [("sub", JStr "u1"); ("role", JStr "admin")] in
  spec_dict_deep_eqb a b = true /\
  spec_dict_deep_eqb a c = false /\
  dumps_dict a <> dumps_dict b.
Proof.
  cbv zeta. repeat split; try reflexivity. vm_compute. discriminate.
Qed.

(** * Further properties of the session class *)

(** ** Keys and order of the merged payload *)

Section MergeOrder.

Implicit Types (k : string) (v : json) (d base update : dict).

Lemma key_in_spec k ks : key_in k ks = true <-> In k ks.
Proof.
  unfold key_in. rewrite existsb_exists. split.
  - intros (x & Hin & Heq). apply String.eqb_eq in Heq. now subst.
  - intros Hin. exists k. split; auto. apply String.eqb_refl.
Qed.

Lemma key_in_false k ks : key_in k ks = false <-> ~ In k ks.
Proof.
  rewrite <- key_in_spec. destruct (key_in k ks); intuition congruence.
Qed.

Lemma filter_filter {A} (f g : A -> bool) (l : list A) :
  filter f (filter g l) = filter (fun x => g x && f x) l.
Proof.
  induction l as [|x l IH]; simpl; auto.
  destruct (g x); simpl; [destruct (f x)|]; now rewrite IH.
Qed.

Lemma filter_all {A} (f : A -> bool) (l : list A) :
  (forall x, In x l -> f x = true) -> filter f l = l.
Proof.
  induction l as [|x l IH]; simpl; intros H; auto.
  rewrite (H x) by auto. f_equal. apply IH. auto.
Qed.

Lemma filter_none {A} (f : A -> bool) (l : list A) :
  (forall x, In x l -> f x = false) -> filter f l = [].
Proof.
  induction l as [|x l IH]; simpl; intros H; auto.
  rewrite (H x) by auto. apply IH. auto.
Qed.

Lemma dict_keys_set_order k v d :
  dict_keys (dict_set k v d)
  = if key_in k (dict_keys d) then dict_keys d else dict_keys d ++ [k].
Proof.
  induction d as [|[k0 v0] rest IH]; simpl; auto.
  destruct (String.eqb k k0) eqn:E; simpl.
  - apply String.eqb_eq in E. now subst.
  - rewrite IH. unfold key_in. destruct (existsb _ _); reflexivity.
Qed.

Lemma dict_keys_update_order d items :
  dict_wf items ->
  dict_keys (dict_update d items)
  = dict_keys d
    ++ filter (fun k => negb (key_in k (dict_keys d))) (dict_keys items).
Proof.
  unfold dict_update, dict_wf. revert d.
  induction items as [|[k v] rest IH]; simpl; intros d Hwf.
  - now rewrite app_nil_r.
  - inversion Hwf as [|? ? Hnotin Hrest]; subst.
    rewrite IH by assumption. rewrite dict_keys_set_order.
    destruct (key_in k (dict_keys d)) eqn:E; simpl.
    + reflexivity.
    + rewrite <- app_assoc. simpl. do 2 f_equal.
      apply filter_ext_in. intros x Hx. f_equal.
      unfold key_in. rewrite existsb_app. simpl.
      destruct (String.eqb_spec x k) as [->|Hne]; [contradiction|].
      now rewrite !orb_false_r.
Qed.

Lemma dict_keys_del_order k d :
  dict_wf d ->
  dict_keys (dict_del k d)
  = filter (fun x => negb (String.eqb x k)) (dict_keys d).
Proof.
  unfold dict_wf. induction d as [|[k0 v0] rest IH]; simpl; intros Hwf; auto.
  inversion Hwf as [|? ? Hnotin Hrest]; subst.
  rewrite (String.eqb_sym k0 k).
  destruct (String.eqb k k0) eqn:E; simpl.
  - apply String.eqb_eq in E. subst k0. symmetry. apply filter_all.
    intros x Hx. apply negb_true_iff. apply String.eqb_neq. congruence.
  - now rewrite IH.
Qed.

Lemma drop_loop_keys update ks d :
  dict_wf d ->
  dict_keys (fold_left (drop_step update) ks d)
  = filter (fun k => negb (key_in k ks && tombstoned update k))
      (dict_keys d).
Proof.
  revert d. induction ks as [|k0 ks IH]; simpl; intros d Hwf.
  - symmetry. now apply filter_all.
  - rewrite drop_step_cases.
    destruct (tombstoned update k0) eqn:E.
    + rewrite IH by now apply dict_del_wf.
      rewrite dict_keys_del_order by assumption. rewrite filter_filter.
      apply filter_ext. intros x.
      destruct (String.eqb_spec x k0) as [->|Hne]; simpl.
      * now rewrite E.
      * destruct (key_in x ks); reflexivity.
    + rewrite IH by assumption. apply filter_ext. intros x.
      destruct (String.eqb_spec x k0) as [->|Hne]; simpl; auto.
      rewrite E. now rewrite andb_false_r.
Qed.

Lemma tombstoned_in update k :
  tombstoned update k = true -> key_in k (dict_keys update) = true.
Proof.
  unfold tombstoned. destruct (dict_get k update) eqn:E; [|discriminate].
  intros _. apply key_in_spec. eapply dict_get_Some_In; eauto.
Qed.

Lemma merge_payload_keys base update :
  dict_wf base -> dict_wf update ->
  dict_keys (merge_payload base update) = merged_keys base update.
Proof.
  intros Hb Hu. unfold merge_payload, drop_tombstones, merged_keys.
  rewrite drop_loop_keys by apply dict_unpack2_wf.
  unfold dict_unpack2. rewrite dict_keys_update_order by assumption.
  rewrite dict_copy by assumption.
  rewrite filter_app, filter_filter. f_equal.
  - apply filter_ext. intros k.
    destruct (tombstoned update k) eqn:E.
    + now rewrite (tombstoned_in _ _ E).
    + now rewrite andb_false_r.
  - apply filter_ext. intros k.
    destruct (tombstoned update k) eqn:E.
    + rewrite (tombstoned_in _ _ E). simpl. now rewrite andb_false_r.
    + rewrite andb_false_r. simpl. now rewrite andb_true_r.
Qed.

(** A dictionary is determined by the order of its keys and the value at
    each key. *)
Lemma dict_ext (a : dict) : forall b : dict,
  dict_wf a ->
  dict_keys a = dict_keys b ->
  (forall k, dict_get k a = dict_get k b) ->
  a = b.
Proof.
  unfold dict_wf.
  induction a as [|[k v] a IH]; intros [|[k' v'] b] Hwf Hkeys Hget;
    simpl in Hkeys; try discriminate; auto.
  injection Hkeys as Hk' Hrest. subst k'.
  apply NoDup_cons_iff in Hwf. destruct Hwf as [Hnotin Hwf'].
  pose proof (Hget k) as Hk. simpl in Hk. rewrite String.eqb_refl in Hk.
  injection Hk as Hv. subst v'. f_equal.
  apply IH; auto. intros x. specialize (Hget x). simpl in Hget.
  destruct (String.eqb x k) eqn:E; auto.
  apply String.eqb_eq in E. rewrite E.
  assert (Ha : dict_get k a = None) by now apply dict_get_None.
  assert (Hb : dict_get k b = None).
  { apply dict_get_None. fold (dict_keys b). now rewrite <- Hrest. }
  congruence.
Qed.

(** The value of the merged payload at any key. *)
Lemma merge_payload_get base update k :
  dict_wf base -> dict_wf update ->
  dict_get k (merge_payload base update)
  = match dict_get k update with
    | Some v => if is_None v then None else Some v
    | None => dict_get k base
    end.
Proof.
  intros Hb Hu. destruct (dict_get k update) as [v|] eqn:E.
  - now apply merge_payload_update_key.
  - now apply merge_payload_other_key.
Qed.

End MergeOrder.

(** ** The merged payload, key by key and in order *)

(** X1.  The payload [merge_into_access_token_payload] hands to the store
    holds, at every key: nothing when the update maps the key to [None],
    the update's value when it maps the key to anything else, and the value
    of the session's payload when the update does not mention the key. *)
Theorem merge_into_value_at_every_key
    (s : Session) (update : dict) (uc : user_context) :
  dict_wf (access_token_payload s) ->
  dict_wf update ->
  let r := merge_into_access_token_payload update uc (initial s) in
  exists sent,
    store_calls (final_calls r) = [(access_token s, sent)] /\
    (forall k, dict_get k update = None ->
               dict_get k sent = dict_get k (access_token_payload s)) /\
    (forall k, dict_get k sent
               = match dict_get k update with
                 | Some JNull => None
                 | Some v => Some v
                 | None => dict_get k (access_token_payload s)
                 end).
Proof.
  intros Hb Hu r.
  exists (merge_payload (access_token_payload s) update).
  split; [subst r; now rewrite merge_into_calls|]. split.
  - intros k Hk. now apply merge_payload_other_key.
  - intros k. rewrite merge_payload_get by assumption.
    destruct (dict_get k update) as [[]|]; reflexivity.
Qed.

Lemma merge_into_value_at_every_key_witness :
  let s := Sample.session_on Sample.echo_store in
  let update := [("role", JNull); ("plan", JStr "pro")] in
  let r := merge_into_access_token_payload update None (initial s) in
  exists sent,
    store_calls (final_calls r) = [("t1", sent)] /\
    dict_get "sub" sent = Some (JStr "u1") /\
    dict_get "role" sent = None /\
    dict_get "plan" sent = Some (JStr "pro").
Proof.
  cbv zeta.
  destruct (merge_into_value_at_every_key
              (Sample.session_on Sample.echo_store)
              [("role", JNull); ("plan", JStr "pro")] None
              ltac:(apply dict_wfb_sound; reflexivity) ltac:(apply dict_wfb_sound; reflexivity))
    as (sent & Hc & _ & Hget).
  exists sent. split; [exact Hc|].
  split; [exact (Hget "sub")|]. split; [exact (Hget "role")|].
  exact (Hget "plan").
Defined.

(** X2.  The merged payload keeps the key order of the session's payload:
    its keys are the keys of the session's payload that the update does not
    delete, in their order, followed by the keys the update adds, in the
    order of the update.  A key whose value the update replaces stays where
    it was. *)
Theorem merge_into_key_order
    (s : Session) (update : dict) (uc : user_context) :
  dict_wf (access_token_payload s) ->
  dict_wf update ->
  let base := access_token_payload s in
  let r := merge_into_access_token_payload update uc (initial s) in
  exists sent,
    store_calls (final_calls r) = [(access_token s, sent)] /\
    dict_keys sent
    = filter (fun k => negb (tombstoned update k)) (dict_keys base)
      ++ filter (fun k => negb (tombstoned update k)
                          && negb (key_in k (dict_keys base)))
           (dict_keys update).
Proof.
  intros Hb Hu base r. exists (merge_payload base update).
  split; [subst r; now rewrite merge_into_calls|].
  now apply merge_payload_keys.
Qed.

Lemma merge_into_key_order_witness :
  let s := Sample.session_on Sample.echo_store in
  let update := [("plan", JStr "pro"); ("sub", JStr "u2"); ("role", JNull)] in
  let r := merge_into_access_token_payload update None (initial s) in
  exists sent,
    store_calls (final_calls r) = [("t1", sent)] /\
    dict_keys sent = ["sub"; "plan"].
Proof.
  cbv zeta.
  destruct (merge_into_key_order
              (Sample.session_on Sample.echo_store)
              [("plan", JStr "pro"); ("sub", JStr "u2"); ("role", JNull)] None
              ltac:(apply dict_wfb_sound; reflexivity) ltac:(apply dict_wfb_sound; reflexivity))
    as (sent & Hc & Hk).
  exists sent. split; [exact Hc | exact Hk].
Defined.

Lemma merge_payload_idempotent base update :
  dict_wf update ->
  merge_payload (merge_payload base update) update = merge_payload base update.
Proof.
  intros Hu. set (m := merge_payload base update).
  assert (Hm : dict_wf m) by apply merge_payload_wf.
  assert (Hat : forall k v, dict_get k update = Some v ->
                  dict_get k m = if is_None v then None else Some v).
  { intros k v Hk. now apply merge_payload_update_key. }
  apply dict_ext.
  - apply merge_payload_wf.
  - rewrite merge_payload_keys by assumption. unfold merged_keys.
    rewrite filter_all, filter_none; [now rewrite app_nil_r | |].
    + intros k Hin.
      destruct (dict_get k update) as [v|] eqn:Hk.
      * unfold tombstoned. rewrite Hk.
        destruct (is_None v) eqn:Hv; simpl; auto.
        pose proof (Hat k v Hk) as Hg. rewrite Hv in Hg.
        assert (Hkm : key_in k (dict_keys m) = true).
        { apply key_in_spec. eapply dict_get_Some_In; eauto. }
        now rewrite Hkm.
      * apply dict_get_None in Hk. contradiction.
    + intros k Hin. apply negb_true_iff.
      destruct (tombstoned update k) eqn:Ht; auto.
      unfold tombstoned in Ht.
      destruct (dict_get k update) as [v|] eqn:Hk; [|discriminate].
      pose proof (Hat k v Hk) as Hg. rewrite Ht in Hg.
      apply dict_get_None in Hg. contradiction.
  - intros k. rewrite merge_payload_get by assumption.
    destruct (dict_get k update) as [v|] eqn:Hk; auto.
    symmetry. now apply Hat.
Qed.

(** X3.  Merging the same update a second time changes nothing: the payload
    computed from the merged payload and the update again is the merged
    payload, item for item and in the same order.  So when the store
    acknowledges the first call with the payload it was sent, a second call
    of [merge_into_access_token_payload] with the same update sends the
    store that same payload again. *)
Theorem merge_into_idempotent
    (s : Session) (update : dict) (uc : user_context)
    (response : RegenerateAccessTokenResult) :
  dict_wf update ->
  let sent := merge_payload (access_token_payload s) update in
  store_answer s sent uc = Some response ->
  user_data_in_jwt response = sent ->
  let twice := merge_into_access_token_payload update uc ;;;
               merge_into_access_token_payload update uc in
  merge_payload sent update = sent /\
  map snd (store_calls (final_calls (twice (initial s)))) = [sent; sent].
Proof.
  intros Hu sent Hans Hecho twice.
  assert (Hid : merge_payload sent update = sent)
    by now apply merge_payload_idempotent.
  split; [exact Hid|].
  subst twice. unfold bind.
  rewrite merge_into_access_token_payload_run.
  cbn [initial self calls app]. cbv zeta. fold sent. rewrite Hans.
  rewrite merge_into_access_token_payload_run. cbn [self calls]. cbv zeta.
  replace (access_token_payload (acknowledged response s)) with sent
    by (symmetry; exact Hecho).
  rewrite Hid.
  destruct (store_answer (acknowledged response s) sent uc); reflexivity.
Qed.

Lemma merge_into_idempotent_witness :
  let s := Sample.session_on Sample.quiet_store in
  let update := [("role", JNull); ("plan", JStr "pro")] in
  let twice := merge_into_access_token_payload update None ;;;
               merge_into_access_token_payload update None in
  map snd (store_calls (final_calls (twice (initial s))))
  = [[("sub", JStr "u1"); ("plan", JStr "pro")];
     [("sub", JStr "u1"); ("plan", JStr "pro")]].
Proof.
  cbv zeta.
  exact (proj2 (merge_into_idempotent
                  (Sample.session_on Sample.quiet_store)
                  [("role", JNull); ("plan", JStr "pro")] None
                  {| user_data_in_jwt := [("sub", JStr "u1"); ("plan", JStr "pro")];
                     resp_access_token := None |}
                  ltac:(apply dict_wfb_sound; reflexivity) eq_refl eq_refl)).
Defined.

(** X4.  Two merges in a row hold, at every key, what one merge of the
    combined update [{**first, **second}] holds: the later update wins, a
    tombstone of either deletes unless the later update sets the key
    again. *)
Theorem merge_payload_sequence (base first second : dict) :
  dict_wf base -> dict_wf first -> dict_wf second ->
  forall k,
    dict_get k (merge_payload (merge_payload base first) second)
    = dict_get k (merge_payload base (dict_unpack2 first second)).
Proof.
  intros Hb H1 H2 k.
  rewrite !merge_payload_get;
    auto using merge_payload_wf, dict_unpack2_wf.
  rewrite dict_unpack2_get by assumption.
  destruct (dict_get k second); reflexivity.
Qed.

Lemma merge_payload_sequence_witness :
  let base := [("role", JStr "user"); ("sub", JStr "u1")] in
  let first := [("role", JNull); ("plan", JStr "pro")] in
  let second := [("role", JStr "admin"); ("plan", JNull)] in
  dict_get "role" (merge_payload (merge_payload base first) second)
  = dict_get "role" (merge_payload base (dict_unpack2 first second)) /\
  dict_get "role" (merge_payload (merge_payload base first) second)
  = Some (JStr "admin").
Proof.
  cbv zeta. split; [|reflexivity].
  exact (merge_payload_sequence
           [("role", JStr "user"); ("sub", JStr "u1")]
           [("role", JNull); ("plan", JStr "pro")]
           [("role", JStr "admin"); ("plan", JNull)]
           ltac:(apply dict_wfb_sound; reflexivity) ltac:(apply dict_wfb_sound; reflexivity)
           ltac:(apply dict_wfb_sound; reflexivity) "role").
Defined.

(** ** Runs of [assert_claims] *)

(** The result of [assert_claims], whichever way the run goes. *)
Lemma assert_claims_cases s vs uc :
  let p0 := access_token_payload s in
  let r := assert_claims vs uc (initial s) in
  let pass := validation_pass vs uc p0 (initial s) in
  (exists e, outcome pass = inl e /\ outcome r = inl e /\
             final_self r = s /\ final_calls r = final_calls pass) \/
  (exists working errs,
     outcome pass = inr (working, errs) /\
     errs = pass_errors (user_id s) uc p0 [] vs /\
     ((working = p0 /\
       final_self r = s /\ final_calls r = final_calls pass /\
       outcome r = match errs with
                   | [] => inr tt
                   | _ :: _ => inl (InvalidClaimsError "INVALID_CLAIMS" errs)
                   end) \/
      (working <> p0 /\
       final_calls r
       = final_calls pass
         ++ [EvMergeInto working;
             EvRegenerate (access_token s) (merge_payload p0 working)] /\
       match store_answer s (merge_payload p0 working) uc with
       | None =>
           final_self r = s /\
           outcome r
           = inl (UnauthorisedError "Session does not exist anymore.")
       | Some response =>
           final_self r = acknowledged response s /\
           outcome r = match errs with
                       | [] => inr tt
                       | _ :: _ =>
                           inl (InvalidClaimsError "INVALID_CLAIMS" errs)
                       end
       end))).
Proof.
  intros p0 r pass.
  pose proof (validation_pass_run vs uc p0 (initial s)) as Hrun.
  cbv zeta in Hrun. cbn [initial self calls app] in Hrun.
  fold (initial s) in Hrun. fold pass in Hrun.
  destruct pass as [[e|[working errs]] w1] eqn:Hpass.
  - left. exists e. split; [reflexivity|].
    destruct Hrun as (Hs & _).
    assert (Hr : r = (inl e, w1)).
    { subst r. rewrite assert_claims_run. cbn [initial self]. cbv zeta.
      fold (initial s). fold p0. subst pass. now rewrite Hpass. }
    rewrite Hr. unfold outcome, final_self, final_calls. cbn [fst snd]. auto.
  - right. exists working, errs. split; [reflexivity|].
    destruct Hrun as (Hs & Hc & He & _). split; [exact He|].
    subst pass.
    destruct (assert_claims_after_pass s vs uc working errs w1 Hpass)
      as (_ & _ & Hr).
    fold r in Hr. fold p0 in Hr.
    destruct (String.eqb (dumps_dict working) (dumps_dict p0)) eqn:E.
    + left. apply String.eqb_eq in E. apply dumps_dict_inj in E.
      rewrite Hr. unfold final_self, final_calls, outcome. cbn [fst snd].
      auto.
    + right. apply dumps_differ_iff in E. split; [exact E|].
      rewrite Hr. unfold final_self, final_calls, outcome.
      destruct (store_answer s (merge_payload p0 working) uc);
        cbn [fst snd self calls]; auto.
Qed.

(** X5.  A run of [assert_claims] calls
    [merge_into_access_token_payload] at most once and the store at most
    once, the store exactly when it merges; and when the pass over the
    validators raises, it does neither and raises the same error. *)
Theorem assert_claims_commits_at_most_once
    (s : Session) (vs : list SessionClaimValidator) (uc : user_context) :
  let r := assert_claims vs uc (initial s) in
  let pass := validation_pass vs uc (access_token_payload s) (initial s) in
  List.length (merge_calls (final_calls r)) <= 1 /\
  List.length (store_calls (final_calls r))
  = List.length (merge_calls (final_calls r)) /\
  (forall e, outcome pass = inl e ->
     outcome r = inl e /\
     merge_calls (final_calls r) = [] /\
     store_calls (final_calls r) = []).
Proof.
  intros r pass.
  pose proof (validation_pass_run vs uc (access_token_payload s) (initial s))
    as Hrun.
  cbv zeta in Hrun. cbn [initial self calls app] in Hrun.
  fold (initial s) in Hrun. fold pass in Hrun.
  destruct (assert_claims_cases s vs uc)
    as [(e & He & Hr & Hs & Hcalls) | (working & errs & Hw & _ & Hcase)];
    fold r in Hr, Hs, Hcalls || fold r in Hcase;
    fold pass in He, Hcalls || fold pass in Hw, Hcase.
  - destruct pass as [[e'|[]] w1]; [|discriminate He].
    destruct Hrun as (_ & done & v & post & _ & _ & _ & Hc).
    rewrite Hcalls. unfold final_calls. cbn [snd]. rewrite Hc.
    destruct (pass_calls_quiet (user_id s) uc (access_token_payload s) []
                (done ++ [v])) as [-> ->].
    simpl. split; [auto|]. split; [reflexivity|].
    intros x Hx. unfold outcome in He, Hx. cbn [fst] in He, Hx.
    rewrite He in Hx. injection Hx as <-.
    auto.
  - destruct pass as [[e'|[working' errs']] w1]; [discriminate Hw|].
    destruct Hrun as (_ & Hc & _ & _).
    assert (Hq : merge_calls (final_calls (inr (working', errs'), w1)) = [] /\
                 store_calls (final_calls (inr (working', errs'), w1)) = []).
    { unfold final_calls. cbn [snd]. rewrite Hc. apply pass_calls_quiet. }
    destruct Hq as [Hq1 Hq2].
    assert (G : List.length (merge_calls (final_calls r)) <= 1 /\
                List.length (store_calls (final_calls r))
                = List.length (merge_calls (final_calls r))).
    { destruct Hcase as [(_ & _ & Hcalls & _) | (_ & Hcalls & _)];
        rewrite Hcalls.
      - rewrite Hq1, Hq2. simpl. auto.
      - rewrite merge_calls_app, store_calls_app, Hq1, Hq2. simpl. auto. }
    destruct G as [G1 G2]. split; [exact G1|]. split; [exact G2|].
    intros x Hx. discriminate Hx.
Qed.

Lemma verdict_no_error uc v shown :
  verdict uc v shown = inr [] ->
  reported_invalid (validate v shown uc) = false.
Proof.
  unfold verdict. destruct (reported_invalid _); auto.
  destruct (dict_get "reason" _); discriminate.
Qed.

(** A pass that ends with no error has had a valid verdict from every
    validator, on the payload that validator was shown. *)
Lemma pass_no_errors uc p0 vs : forall pre w working w',
  let uid := user_id (self w) in
  for_each vs (check_validator uc) (working_after uid uc pre p0, []) w
  = (inr (working, []), w') ->
  forall done v post,
    vs = done ++ v :: post ->
    reported_invalid
      (validate v (working_after uid uc (pre ++ done ++ [v]) p0) uc) = false.
Proof.
  induction vs as [|x rest IH]; intros pre w working w' uid Hrun done v post Hvs.
  - destruct done; discriminate.
  - cbn [for_each] in Hrun. unfold bind in Hrun.
    rewrite check_validator_run in Hrun. fold uid in Hrun. cbv zeta in Hrun.
    destruct (verdict uc x (refetched uid uc x (working_after uid uc pre p0)))
      as [e|es] eqn:Ev; [discriminate|].
    rewrite <- working_after_snoc in Hrun. simpl app in Hrun.
    pose proof (pass_run uc p0 rest (pre ++ [x]) es
                  {| self := self w;
                     calls := calls w
                              ++ iteration_calls uid uc x
                                   (working_after uid uc pre p0) |}) as Hp.
    cbv zeta in Hp. cbn [self calls] in Hp. fold uid in Hp.
    rewrite Hrun in Hp. destruct Hp as (_ & _ & He & _).
    symmetry in He. apply app_eq_nil in He. destruct He as [-> _].
    destruct done as [|d done]; simpl in Hvs; injection Hvs as <- Hrest.
    + simpl. rewrite working_after_snoc. apply verdict_no_error.
      rewrite <- working_after_snoc in Ev. rewrite working_after_snoc in Ev.
      exact Ev.
    + specialize (IH (pre ++ [x])
                    {| self := self w;
                       calls := calls w
                                ++ iteration_calls uid uc x
                                     (working_after uid uc pre p0) |}
                    working w' Hrun done v post Hrest).
      cbn [self] in IH. fold uid in IH.
      now rewrite <- app_assoc in IH.
Qed.

(** X6.  When [assert_claims] returns without raising, every validator of
    the list gave a valid verdict: the result of its [validate], on the
    working payload left by the validators before it and its own refetch,
    has a true ["isValid"]. *)
Theorem assert_claims_success_all_valid
    (s : Session) (vs : list SessionClaimValidator) (uc : user_context) :
  outcome (assert_claims vs uc (initial s)) = inr tt ->
  forall pre v post,
    vs = pre ++ v :: post ->
    let shown := working_after (user_id s) uc (pre ++ [v])
                   (access_token_payload s) in
    reported_invalid (validate v shown uc) = false /\
    exists ok, dict_get "isValid" (validate v shown uc) = Some ok /\
               truthy ok = true.
Proof.
  intros Hok pre v post Hvs shown.
  assert (Hvalid : reported_invalid (validate v shown uc) = false).
  { destruct (assert_claims_cases s vs uc)
      as [(e & _ & Hr & _) | (working & errs & Hw & _ & Hcase)].
    - rewrite Hr in Hok. discriminate.
    - assert (Herrs : errs = []).
      { destruct Hcase as [(_ & _ & _ & Hr) | (_ & _ & Hr)].
        - rewrite Hr in Hok. destruct errs; [reflexivity|discriminate].
        - destruct (store_answer s _ uc); destruct Hr as [_ Hr];
            rewrite Hr in Hok; [|discriminate].
          destruct errs; [reflexivity|discriminate]. }
      subst errs.
      destruct (validation_pass vs uc (access_token_payload s) (initial s))
        as [res w1] eqn:Hpass.
      unfold outcome in Hw. cbn [fst] in Hw. subst res.
      unfold validation_pass in Hpass.
      exact (pass_no_errors uc (access_token_payload s) vs [] (initial s)
               working w1 Hpass pre v post Hvs). }
  split; [exact Hvalid|].
  unfold reported_invalid in Hvalid. apply negb_false_iff in Hvalid.
  destruct (dict_get "isValid" (validate v shown uc)) as [ok|];
    [|discriminate].
  exists ok. auto.
Qed.

Lemma assert_claims_success_all_valid_witness :
  let s := Sample.session_on Sample.echo_store in
  let vs := [Sample.refreshing Sample.role_claim; Sample.admin_only] in
  outcome (assert_claims vs None (initial s)) = inr tt /\
  reported_invalid
    (validate Sample.admin_only
       [("role", JStr "admin"); ("sub", JStr "u1")] None) = false.
Proof.
  cbv zeta. split; [reflexivity|].
  exact (proj1 (assert_claims_success_all_valid
                  (Sample.session_on Sample.echo_store)
                  [Sample.refreshing Sample.role_claim; Sample.admin_only]
                  None eq_refl
                  [Sample.refreshing Sample.role_claim] Sample.admin_only []
                  eq_refl)).
Defined.

Lemma acknowledged_same_identity response s :
  same_identity (acknowledged response s) s.
Proof. unfold same_identity, acknowledged. simpl. auto. Qed.

Lemma same_identity_refl s : same_identity s s.
Proof. unfold same_identity. auto. Qed.

Lemma merge_into_final_self update uc s :
  let r := merge_into_access_token_payload update uc (initial s) in
  match store_answer s (merge_payload (access_token_payload s) update) uc with
  | Some response => final_self r = acknowledged response s
  | None => final_self r = s
  end.
Proof.
  cbv zeta. rewrite merge_into_access_token_payload_run.
  cbn [initial self calls]. cbv zeta.
  destruct (store_answer s _ uc); reflexivity.
Qed.

(** X7.  No run of [assert_claims], [merge_into_access_token_payload],
    [update_access_token_payload], [remove_claim], [set_claim_value] or
    [fetch_and_set_claim] changes the user id, the session handle, the
    recipe or the remove-cookies flag of the session object, whatever the
    store answers and whether or not the call raises. *)
Theorem claim_methods_keep_identity (s : Session) (uc : user_context) :
  (forall vs, same_identity (final_self (assert_claims vs uc (initial s))) s) /\
  (forall update,
     same_identity
       (final_self (merge_into_access_token_payload update uc (initial s))) s) /\
  (forall p,
     same_identity
       (final_self (update_access_token_payload p uc (initial s))) s) /\
  (forall c, same_identity (final_self (remove_claim c uc (initial s))) s) /\
  (forall c value,
     same_identity (final_self (set_claim_value c value uc (initial s))) s) /\
  (forall build,
     same_identity (final_self (fetch_and_set_claim build uc (initial s))) s).
Proof.
  assert (Hmerge : forall update uc',
    same_identity
      (final_self (merge_into_access_token_payload update uc' (initial s))) s).
  { intros update uc'. pose proof (merge_into_final_self update uc' s) as H.
    cbv zeta in H. destruct (store_answer s _ uc'); rewrite H;
      auto using acknowledged_same_identity, same_identity_refl. }
  split; [|split; [|split; [|split; [|split]]]].
  - intros vs.
    destruct (assert_claims_cases s vs uc)
      as [(e & _ & _ & -> & _) | (working & errs & _ & _ & Hcase)];
      [apply same_identity_refl|].
    destruct Hcase as [(_ & -> & _) | (_ & _ & Hr)];
      [apply same_identity_refl|].
    destruct (store_answer s _ uc); destruct Hr as [-> _];
      auto using acknowledged_same_identity, same_identity_refl.
  - intros update. apply Hmerge.
  - intros p. rewrite update_access_token_payload_run.
    cbn [initial self calls]. cbv zeta.
    destruct (store_answer s p uc); unfold final_self; cbn [snd self];
      auto using acknowledged_same_identity, same_identity_refl.
  - intros c. unfold remove_claim. apply Hmerge.
  - intros c value. unfold set_claim_value. apply Hmerge.
  - intros build. unfold fetch_and_set_claim, bind, get_user_id, get_self, ret.
    cbn [initial self]. apply Hmerge.
Qed.

Lemma merge_into_only_update_keys s update uc :
  dict_wf (access_token_payload s) ->
  dict_wf update ->
  exists sent,
    final_calls (merge_into_access_token_payload update uc (initial s))
    = [EvMergeInto update; EvRegenerate (access_token s) sent] /\
    (forall k v, dict_get k update = Some v -> v <> JNull ->
                 dict_get k sent = Some v) /\
    (forall k, dict_get k update = None ->
               dict_get k sent = dict_get k (access_token_payload s)).
Proof.
  intros Hb Hu.
  exists (merge_payload (access_token_payload s) update).
  split; [apply merge_into_calls|]. split.
  - intros k v Hk Hv.
    rewrite (merge_payload_update_key _ update k v Hu Hk).
    destruct v; simpl; congruence.
  - intros k Hk. now apply merge_payload_other_key.
Qed.

(** X8.  [set_claim_value] and [fetch_and_set_claim] call the store once,
    with the session's payload merged with the claim's update, which
    [set_claim_value] builds on the empty payload and not on the session's:
    the keys the update binds to a value get that value, and every key the
    update does not mention keeps the value it has in the session's
    payload. *)
Theorem claim_setters_change_only_their_keys
    (s : Session) (uc : user_context) :
  dict_wf (access_token_payload s) ->
  (forall c value,
     let update := add_to_payload_ c [] value uc in
     dict_wf update ->
     exists sent,
       final_calls (set_claim_value c value uc (initial s))
       = [EvMergeInto update; EvRegenerate (access_token s) sent] /\
       (forall k v, dict_get k update = Some v -> v <> JNull ->
                    dict_get k sent = Some v) /\
       (forall k, dict_get k update = None ->
                  dict_get k sent = dict_get k (access_token_payload s))) /\
  (forall build,
     let update := build (user_id s) uc in
     dict_wf update ->
     exists sent,
       final_calls (fetch_and_set_claim build uc (initial s))
       = [EvMergeInto update; EvRegenerate (access_token s) sent] /\
       (forall k v, dict_get k update = Some v -> v <> JNull ->
                    dict_get k sent = Some v) /\
       (forall k, dict_get k update = None ->
                  dict_get k sent = dict_get k (access_token_payload s))).
Proof.
  intros Hb. split.
  - intros c value update Hu. unfold set_claim_value. fold update.
    now apply merge_into_only_update_keys.
  - intros build update Hu.
    unfold fetch_and_set_claim, bind, get_user_id, get_self, ret.
    cbn [initial self]. fold update.
    now apply merge_into_only_update_keys.
Qed.

Lemma claim_setters_change_only_their_keys_witness :
  let s := Sample.session_on Sample.echo_store in
  let r := set_claim_value Sample.role_claim (JStr "owner") None (initial s) in
  exists sent,
    final_calls r
    = [EvMergeInto [("role", JStr "owner")]; EvRegenerate "t1" sent] /\
    dict_get "role" sent = Some (JStr "owner") /\
    dict_get "sub" sent = Some (JStr "u1").
Proof.
  cbv zeta.
  destruct (proj1 (claim_setters_change_only_their_keys
                     (Sample.session_on Sample.echo_store) None
                     ltac:(apply dict_wfb_sound; reflexivity))
              Sample.role_claim (JStr "owner")
              ltac:(apply dict_wfb_sound; reflexivity))
    as (sent & Hc & Hset & Hkeep).
  exists sent. split; [exact Hc|]. split.
  - apply Hset; [reflexivity | discriminate].
  - exact (Hkeep "sub" eq_refl).
Defined.

(** ** The session API *)

Section ApiFacts.

Import Api.

(** Splits a statement about one run of an API function, opens the
    hypotheses and closes the cases that an impossible equation between
    results rules out. *)
Ltac api_split :=
  repeat match goal with
         | |- _ /\ _ => split
         | |- _ <-> _ => split
         | |- forall _, _ => intro
         end.

Ltac api_absurd :=
  try match goal with
      | H : _ = _ |- _ => discriminate H
      end.

Ltac api_hyps :=
  repeat match goal with
         | H : _ /\ _ |- _ => destruct H
         | H : exists _, _ |- _ => destruct H
         | H : _ \/ _ |- _ => destruct H
         | H : inl _ = inr _ |- _ => discriminate H
         | H : inr _ = inl _ |- _ => discriminate H
         | H : inr None = inr (Some _) |- _ => discriminate H
         | H : inr (Some _) = inr None |- _ => discriminate H
         | H : [] = _ :: _ |- _ => discriminate H
         | H : _ :: _ = [] |- _ => discriminate H
         | H : [_] = [_; _] |- _ => discriminate H
         | H : [_; _] = [_] |- _ => discriminate H
         | H : inl ?a = inl ?b |- _ => injection H as H; subst
         | H : inr ?a = inr ?b |- _ => injection H as H; subst
         | H : Some ?a = Some ?b |- _ => injection H as H; subst
         end.

(** [revoke_session] asks the store once, with the session's handle and
    the context defaulted to the empty dictionary. *)
Lemma revoke_session_run st uc s :
  revoke_session st uc s
  = (match Store.revoke_session st (session_handle s) (default_context uc) with
     | inl e => inl e
     | inr _ => inr tt
     end,
     match Store.revoke_session st (session_handle s) (default_context uc) with
     | inl _ => s
     | inr _ => set_remove_cookies true s
     end,
     [Store.Revoke (session_handle s) (default_context uc)]).
Proof.
  unfold revoke_session.
  now destruct (Store.revoke_session st (session_handle s) (default_context uc)).
Qed.

(** [method in ("options", "trace")] *)
Lemma preflight_test (m : string) :
  (String.eqb m "options" || String.eqb m "trace")%bool = true
  <-> m = "options" \/ m = "trace".
Proof.
  rewrite orb_true_iff, !String.eqb_eq. reflexivity.
Qed.

(** [incoming_path.equals(refresh_token_path) and method == "post"] *)
Lemma refresh_test (p q m : string) :
  (String.eqb p q && String.eqb m "post")%bool = true
  <-> p = q /\ m = "post".
Proof.
  rewrite andb_true_iff, !String.eqb_eq. reflexivity.
Qed.

(** The four ways through [verify_session]. *)
Lemma verify_session_cases
    (o : APIOptions) (anti_csrf_check : option bool)
    (session_required : bool) (override : option Override)
    (uc : user_context) :
  let r := verify_session o anti_csrf_check session_required override uc in
  let m := normalise_http_method o (method (request o)) in
  let path := normalised_url_path o (get_path (request o)) in
  let get := GetSession (request o) anti_csrf_check session_required
               override uc in
  ((m = "options" \/ m = "trace") /\ r = (inr None, [])) \/
  (~ (m = "options" \/ m = "trace") /\
   ((exists e, path = inl e /\ r = (inl e, [])) \/
    (exists p, path = inr p /\ (p = refresh_token_path o /\ m = "post") /\
       r = (match refresh_session o (request o) uc with
            | inl e => inl e
            | inr session => inr (Some session)
            end, [RefreshSession (request o) uc])) \/
    (exists p, path = inr p /\ ~ (p = refresh_token_path o /\ m = "post") /\
       r = match get_session o (request o) anti_csrf_check session_required
                   override uc with
           | inl e => (inl e, [get])
           | inr None => (inr None, [get])
           | inr (Some s0) =>
               (match assert_claims o s0 override uc with
                | inl e => inl e
                | inr session => inr (Some session)
                end, [get; AssertClaims (session_handle s0) override uc])
           end))).
Proof.
  intros r m path get. subst r. unfold verify_session. fold m. fold path.
  destruct (String.eqb m "options" || String.eqb m "trace")%bool eqn:Epre.
  - left. split; [now apply preflight_test|reflexivity].
  - right. split.
    { intros H. apply preflight_test in H. congruence. }
    destruct path as [e|p].
    + left. exists e. auto.
    + right.
      destruct (String.eqb p (refresh_token_path o) && String.eqb m "post")%bool
        eqn:Eref.
      * left. exists p. split; [reflexivity|].
        split; [now apply refresh_test|].
        now destruct (refresh_session o (request o) uc).
      * right. exists p. split; [reflexivity|].
        split.
        { intros H. apply refresh_test in H. congruence. }
        fold get.
        destruct (get_session o (request o) anti_csrf_check session_required
                    override uc) as [e|[s0|]]; try reflexivity.
        cbn [app].
        now destruct (assert_claims o s0 override uc).
Qed.

(** X10.  [verify_session] ties every result to the request.  OPTIONS and
    TRACE requests are answered [None] with no call at all.  For any other
    method, a POST on the refresh path calls [refresh_session] alone; every
    other path calls [get_session] with the arguments of the caller, and
    then [assert_claims] exactly when [get_session] returned a session, on
    that session.  A session is returned exactly when [refresh_session]
    returned it on the refresh path or [assert_claims] returned on the
    session of [get_session]; [None] exactly for OPTIONS and TRACE and when
    [get_session] returned [None]; and an error is raised exactly when the
    path does not normalise or the collaborator that the request reaches
    raises it. *)
Theorem verify_session_protocol
    (o : APIOptions) (anti_csrf_check : option bool)
    (session_required : bool) (override : option Override)
    (uc : user_context) :
  let r := verify_session o anti_csrf_check session_required override uc in
  let m := normalise_http_method o (method (request o)) in
  let preflight := m = "options" \/ m = "trace" in
  let path := normalised_url_path o (get_path (request o)) in
  let to_refresh :=
    exists p, path = inr p /\ (p = refresh_token_path o /\ m = "post") in
  let to_session :=
    exists p, path = inr p /\ ~ (p = refresh_token_path o /\ m = "post") in
  let refreshed := refresh_session o (request o) uc in
  let got := get_session o (request o) anti_csrf_check session_required
               override uc in
  let refresh := RefreshSession (request o) uc in
  let get := GetSession (request o) anti_csrf_check session_required
               override uc in
  (snd r = [] <-> preflight \/ exists e, path = inl e) /\
  (snd r = [refresh] <-> ~ preflight /\ to_refresh) /\
  (snd r = [get] <->
   ~ preflight /\ to_session /\ forall s0, got <> inr (Some s0)) /\
  (forall s0,
     got = inr (Some s0) ->
     snd r = [get; AssertClaims (session_handle s0) override uc]
     <-> ~ preflight /\ to_session) /\
  (forall session,
     fst r = inr (Some session) <->
     ~ preflight /\
     ((to_refresh /\ refreshed = inr session) \/
      (to_session /\
       exists s0, got = inr (Some s0) /\
                  assert_claims o s0 override uc = inr session))) /\
  (fst r = inr None <->
   preflight \/ (to_session /\ got = inr None)) /\
  (forall e,
     fst r = inl e <->
     ~ preflight /\
     (path = inl e \/
      (to_refresh /\ refreshed = inl e) \/
      (to_session /\
       (got = inl e \/
        exists s0, got = inr (Some s0) /\
                   assert_claims o s0 override uc = inl e)))).
Proof.
  intros r m preflight path to_refresh to_session refreshed got refresh get.
  pose proof (verify_session_cases o anti_csrf_check session_required
                override uc) as Hc.
  cbv zeta in Hc. fold r m path refreshed got refresh get in Hc.
  fold preflight in Hc.
  subst refresh get.
  destruct Hc as [[Hpre Hr] | [Hpre [(e0 & Hp & Hr) | [(p & Hp & Href & Hr)
                                                      | (p & Hp & Href & Hr)]]]].
  - rewrite Hr. cbn [fst snd]. clearbody path got refreshed.
    api_split; api_hyps; try tauto.
  - assert (Hnr : ~ to_refresh).
    { intros (p & Hp' & _). congruence. }
    assert (Hns : ~ to_session).
    { intros (p & Hp' & _). congruence. }
    rewrite Hr. cbn [fst snd]. clearbody path got refreshed to_refresh to_session.
    api_split; api_hyps; api_absurd; try tauto; try congruence; eauto.
  - assert (Hyr : to_refresh) by (exists p; auto).
    assert (Hns : ~ to_session).
    { intros (p' & Hp' & Hn). apply Hn.
      rewrite Hp in Hp'. injection Hp' as <-. exact Href. }
    rewrite Hr. cbn [fst snd]. clearbody path got refreshed to_refresh to_session.
    destruct refreshed as [e1|s1];
      api_split; api_hyps; api_absurd; try tauto; try congruence; eauto.
  - assert (Hys : to_session) by (exists p; auto).
    assert (Hnr : ~ to_refresh).
    { intros (p' & Hp' & Hy). apply Href.
      rewrite Hp in Hp'. injection Hp' as <-. exact Hy. }
    clearbody path refreshed to_refresh to_session.
    destruct got as [e1|[s1|]] eqn:Eg; subst got.
    + rewrite Hr. cbn [fst snd].
      api_split; api_hyps; api_absurd; try tauto; try congruence; eauto 8.
    + rewrite Hr. cbn [fst snd].
      destruct (assert_claims o s1 override uc) as [e2|s2] eqn:Ea;
        api_split; api_hyps; api_absurd; try tauto; try congruence; eauto 8.
    + rewrite Hr. cbn [fst snd].
      api_split; api_hyps; api_absurd; try tauto; try congruence; eauto 8.
Qed.

Lemma verify_session_protocol_witness :
  let s0 := Sample.session_on Sample.echo_store in
  let checked := set_remove_cookies false s0 in
  let o := {| request := {| method := "GET"; get_path := "/auth/user" |};
              refresh_token_path := "/auth/session/refresh";
              normalise_http_method := fun m =>
                if String.eqb m "GET" then "get" else m;
              normalised_url_path := fun p => inr p;
              refresh_session := fun _ _ =>
                inl (GeneralException "not a refresh");
              get_session := fun _ _ _ _ _ => inr (Some s0);
              assert_claims := fun s _ _ => inr s;
              session_store :=
                {| Store.revoke_session := fun _ _ => inr true |} |} in
  let r := verify_session o None true None None in
  fst r = inr (Some s0) /\
  snd r = [GetSession (request o) None true None None;
           AssertClaims "h1" None None].
Proof.
  cbv zeta.
  set (s0 := Sample.session_on Sample.echo_store).
  set (o := {| request := {| method := "GET"; get_path := "/auth/user" |};
               refresh_token_path := "/auth/session/refresh";
               normalise_http_method := fun m =>
                 if String.eqb m "GET" then "get" else m;
               normalised_url_path := fun p => inr p;
               refresh_session := fun _ _ =>
                 inl (GeneralException "not a refresh");
               get_session := fun _ _ _ _ _ => inr (Some s0);
               assert_claims := fun s _ _ => inr s;
               session_store :=
                 {| Store.revoke_session := fun _ _ => inr true |} |}).
  destruct (verify_session_protocol o None true None None)
    as (_ & _ & _ & Hlog & Hres & _).
  assert (Hpre : ~ (normalise_http_method o (method (request o)) = "options"
                    \/ normalise_http_method o (method (request o)) = "trace")).
  { intros [H|H]; vm_compute in H; discriminate H. }
  assert (Hto : exists p,
             normalised_url_path o (get_path (request o)) = inr p /\
             ~ (p = refresh_token_path o /\
                normalise_http_method o (method (request o)) = "post")).
  { exists "/auth/user". split; [reflexivity|].
    intros [H _]. vm_compute in H. discriminate H. }
  split.
  - apply Hres. split; [exact Hpre|]. right. split; [exact Hto|].
    exists s0. split; reflexivity.
  - apply (Hlog s0 eq_refl). split; [exact Hpre | exact Hto].
Defined.

(** X11.  [signout_post] asks for the session with [session_required] true,
    no anti-CSRF choice and an override that yields no claim validators,
    and asks the store to revoke exactly when [get_session] returned a
    session, with that session's handle.  It answers OK exactly when
    [get_session] raised the unauthorised error or the store's revoke
    returned, whatever it returned; only then is the session flagged for
    cookie removal.  It raises exactly the other errors of [get_session],
    an [Exception] for a missing session, and whatever the store's revoke
    raises: the unauthorised error is caught from [get_session] only, so
    [signout_post] raises it exactly when the revoke does. *)
Theorem signout_post_outcomes (o : APIOptions) (uc : user_context) :
  let r := signout_post o uc in
  let got :=
    get_session o (request o) None true (Some no_global_validators) uc in
  let get := GetSession (request o) None true (Some no_global_validators) uc in
  let revoke := fun session : Session =>
    Store.revoke_session (session_store o) (session_handle session)
      (default_context uc) in
  let revoke_call := fun session : Session =>
    SessionCall (Store.Revoke (session_handle session) (default_context uc)) in
  (forall vs s, no_global_validators s vs uc = []) /\
  snd r = get :: match got with
                 | inr (Some session) => [revoke_call session]
                 | _ => []
                 end /\
  (fst (fst r) = inr SignOutOkay <->
   (exists e, got = inl e /\ is_unauthorised e = true) \/
   (exists session b, got = inr (Some session) /\ revoke session = inr b)) /\
  (forall e,
     fst (fst r) = inl e <->
     (got = inl e /\ is_unauthorised e = false) \/
     (got = inr None /\
      e = GeneralException "Session is undefined. Should not come here.") \/
     (exists session, got = inr (Some session) /\ revoke session = inl e)) /\
  (forall e,
     is_unauthorised e = true ->
     fst (fst r) = inl e <->
     exists session, got = inr (Some session) /\ revoke session = inl e) /\
  (forall after,
     snd (fst r) = Some after <->
     exists session,
       got = inr (Some session) /\
       ((exists b, revoke session = inr b /\
                   after = set_remove_cookies true session) \/
        (exists e, revoke session = inl e /\ after = session))).
Proof.
  intros r got get revoke revoke_call. subst r. unfold signout_post.
  fold got. subst get.
  split; [reflexivity|].
  destruct got as [e0|[session|]] eqn:Eg.
  - destruct (is_unauthorised e0) eqn:Eu; cbn [fst snd];
      (split; [reflexivity|]);
      api_split; api_hyps; api_absurd; try congruence; eauto 8.
  - rewrite revoke_session_run. fold (revoke session).
    cbn [map app]. fold (revoke_call session).
    destruct (revoke session) as [e1|b] eqn:Er; cbn [fst snd];
      (split; [reflexivity|]);
      api_split; api_hyps; api_absurd; try congruence; eauto 8.
  - cbn [fst snd]. split; [reflexivity|].
    api_split; api_hyps; api_absurd; try congruence; eauto 8.
Qed.

(** A store whose revoke raises the unauthorised error: [signout_post]
    raises it, after the call, and the session is not flagged. *)
Example signout_post_revoke_unauthorised :
  let s0 := Sample.session_on Sample.echo_store in
  let gone := SessionError (UnauthorisedError "Session does not exist anymore.") in
  let o := {| request := {| method := "POST"; get_path := "/auth/signout" |};
              refresh_token_path := "/auth/session/refresh";
              normalise_http_method := fun m => m;
              normalised_url_path := fun p => inr p;
              refresh_session := fun _ _ => inr s0;
              get_session := fun _ _ _ _ _ => inr (Some s0);
              assert_claims := fun s _ _ => inr s;
              session_store :=
                {| Store.revoke_session := fun _ _ => inl gone |} |} in
  signout_post o None
  = (inl gone, Some s0,
     [GetSession (request o) None true (Some no_global_validators) None;
      SessionCall (Store.Revoke "h1" (Some []))]).
Proof. reflexivity. Qed.

End ApiFacts.

(** ** [ThirdPartyEmailPasswordRecipe] *)

Section RecipeFacts.

Import ThirdPartyEmailPassword.

Context {Request Response Result Error Path APIHandled : Type}.

Local Abbreviation child :=
  (Child.t Request Response Result Error Path APIHandled).
Local Abbreviation recipe :=
  (@ThirdPartyEmailPassword.t Request Response Result Error Path APIHandled).

(** The child can handle the request. *)
Local Abbreviation can_handle c path method :=
  (is_not_None (Child.return_api_id_if_can_handle_request c path method)
   = true).

(** The child claims the error. *)
Local Abbreviation claims c err :=
  (Child.is_error_from_this_or_child_recipe_based_on_instance c err = true).

(** X12.  [handle_api_request] hands the request to one of the recipe's
    child recipes and returns what that child returns.  The email and
    password recipe gets every request it can handle, also those another
    child can handle; the third-party recipe, when there is one, gets those
    it can handle and the email and password recipe cannot; the email
    verification recipe gets all the others, also those that no child can
    handle.  So whenever some child can handle the request, the child it is
    handed to can. *)
Theorem handle_api_request_routes_to_capable_child
    (self : recipe) (request_id : string) (request : Request) (path : Path)
    (method : string) (response : Response) :
  exists c : child,
    In c (children self) /\
    handle_api_request self request_id request path method response
    = Child.handle_api_request c request_id request path method response /\
    (can_handle (email_password_recipe self) path method ->
     c = email_password_recipe self) /\
    (~ can_handle (email_password_recipe self) path method ->
     forall tp, third_party_recipe self = Some tp ->
                can_handle tp path method -> c = tp) /\
    (~ can_handle (email_password_recipe self) path method ->
     (forall tp, third_party_recipe self = Some tp ->
                 ~ can_handle tp path method) ->
     c = email_verification_recipe self) /\
    ((exists c', In c' (children self) /\ can_handle c' path method) ->
     can_handle c path method) /\
    ((forall c', In c' (children self) -> ~ can_handle c' path method) ->
     c = email_verification_recipe self).
Proof.
  unfold handle_api_request, children.
  destruct (is_not_None
              (Child.return_api_id_if_can_handle_request
                 (email_password_recipe self) path method)) eqn:Eep.
  - exists (email_password_recipe self).
    split; [now left|]. split; [reflexivity|].
    split; [reflexivity|]. split; [intros H; now elim H|].
    split; [intros H; now elim H|]. split; [auto|].
    intros Hnone. exfalso. apply (Hnone (email_password_recipe self)).
    + now left.
    + exact Eep.
  - destruct (third_party_recipe self) as [tp|].
    + destruct (is_not_None
                  (Child.return_api_id_if_can_handle_request tp path method))
        eqn:Etp.
      * exists tp.
        split; [right; right; now left|]. split; [reflexivity|].
        split; [discriminate|].
        split; [intros _ tp' Htp' _; congruence|].
        split; [intros _ Hn; exfalso; now apply (Hn tp eq_refl)|].
        split; [auto|].
        intros Hnone. exfalso. apply (Hnone tp); [|exact Etp].
        right. right. now left.
      * exists (email_verification_recipe self).
        split; [right; now left|]. split; [reflexivity|].
        split; [discriminate|].
        split; [intros _ tp' Htp' Hc; congruence|].
        split; [reflexivity|]. split; [|reflexivity].
        intros (c' & [<-|[<-|[<-|[]]]] & Hc'); congruence.
    + exists (email_verification_recipe self).
      split; [right; now left|]. split; [reflexivity|].
      split; [discriminate|].
      split; [intros _ tp' Htp' _; discriminate Htp'|].
      split; [reflexivity|]. split; [|reflexivity].
      intros (c' & [<-|[<-|[]]] & Hc'); congruence.
Qed.

(** X13.  [handle_error] hands the error to one child recipe and returns
    what it returns; whenever some child claims the error, the child it is
    handed to claims it.  When the recipe itself reports the error as its
    own or a child's and the error is not of the recipe's own exception
    class, a child claims it and so receives it.  An error that is no
    [SuperTokensError] is never reported as the recipe's, whatever the
    children say. *)
Theorem handle_error_routes_to_claiming_child
    (is_SuperTokensError is_own : Error -> bool)
    (self : recipe) (request : Request) (err : Error) (response : Response) :
  let reported :=
    is_error_from_this_or_child_recipe_based_on_instance
      is_SuperTokensError is_own self err in
  exists c : child,
    In c (children self) /\
    handle_error self request err response
    = Child.handle_error c request err response /\
    ((exists c', In c' (children self) /\ claims c' err) -> claims c err) /\
    (reported = true -> is_own err = false -> claims c err) /\
    (is_SuperTokensError err = false -> reported = false).
Proof.
  intros reported.
  assert (Hrep : reported = true -> is_own err = false ->
                 exists c', In c' (children self) /\ claims c' err).
  { subst reported.
    unfold is_error_from_this_or_child_recipe_based_on_instance, children.
    intros H Hown. rewrite Hown in H.
    apply andb_prop in H. destruct H as [_ H]. simpl in H.
    apply orb_prop in H. destruct H as [H|H].
    - apply orb_prop in H. destruct H as [H|H].
      + exists (email_verification_recipe self). split; [right; now left|auto].
      + exists (email_password_recipe self). split; [now left|auto].
    - destruct (third_party_recipe self) as [tp|]; [|discriminate].
      exists tp. split; [right; right; now left|auto]. }
  assert (Hnot : is_SuperTokensError err = false -> reported = false).
  { subst reported.
    unfold is_error_from_this_or_child_recipe_based_on_instance.
    now intros ->. }
  assert (G : exists c : child,
    In c (children self) /\
    handle_error self request err response
    = Child.handle_error c request err response /\
    ((exists c', In c' (children self) /\ claims c' err) -> claims c err)).
  { unfold handle_error, children.
    destruct (Child.is_error_from_this_or_child_recipe_based_on_instance
                (email_password_recipe self) err) eqn:Eep.
    - exists (email_password_recipe self). repeat split; auto. now left.
    - destruct (third_party_recipe self) as [tp|].
      + destruct (Child.is_error_from_this_or_child_recipe_based_on_instance
                    tp err) eqn:Etp.
        * exists tp. repeat split; auto. right. right. now left.
        * exists (email_verification_recipe self). repeat split; auto.
          -- right. now left.
          -- intros (c' & [<-|[<-|[<-|[]]]] & Hc'); congruence.
      + exists (email_verification_recipe self). repeat split; auto.
        * right. now left.
        * intros (c' & [<-|[<-|[]]] & Hc'); congruence. }
  destruct G as (c & Hin & Heq & Hsound).
  exists c. repeat split; auto.
Qed.

(** X15.  The lists of handled APIs and of CORS headers of the recipe are
    those of the email and password recipe, then those of the email
    verification recipe, then those of the third-party recipe when there is
    one, in this order and with every repetition kept.  So an entry is in
    the recipe's list exactly when it is in the list of one of its
    children, and the length of each list is the sum over the children. *)
Theorem recipe_lists_are_the_childrens (self : recipe) :
  get_apis_handled self
  = Child.get_apis_handled (email_password_recipe self)
    ++ Child.get_apis_handled (email_verification_recipe self)
    ++ match third_party_recipe self with
       | Some tp => Child.get_apis_handled tp
       | None => []
       end /\
  get_all_cors_headers self
  = Child.get_all_cors_headers (email_password_recipe self)
    ++ Child.get_all_cors_headers (email_verification_recipe self)
    ++ match third_party_recipe self with
       | Some tp => Child.get_all_cors_headers tp
       | None => []
       end /\
  (forall a, In a (get_apis_handled self) <->
             exists c, In c (children self) /\ In a (Child.get_apis_handled c))
  /\
  (forall h, In h (get_all_cors_headers self) <->
             exists c, In c (children self)
                       /\ In h (Child.get_all_cors_headers c)) /\
  List.length (get_apis_handled self)
  = list_sum (map (fun c => List.length (Child.get_apis_handled c))
                (children self)) /\
  List.length (get_all_cors_headers self)
  = list_sum (map (fun c => List.length (Child.get_all_cors_headers c))
                (children self)).
Proof.
  unfold get_apis_handled, get_all_cors_headers, children.
  destruct (third_party_recipe self) as [tp|]; simpl;
    rewrite <- ?app_assoc, ?app_nil_r;
    repeat split; intros;
    repeat match goal with
           | H : In _ (_ ++ _) |- _ => apply in_app_or in H; destruct H
           | H : exists _, _ |- _ => destruct H as (? & ? & ?)
           | H : _ \/ _ |- _ => destruct H; subst
           | H : False |- _ => contradiction
           end;
    rewrite ?length_app, ?in_app_iff; eauto 8; try lia.
Qed.

(** X14.  Once the singleton holds a recipe object, it holds that object
    for good: after any sequence of calls of [init], [get_instance] and
    [reset] the instance is the same, every [init] in the sequence raised
    "already initialised" whatever the constructor would have returned,
    every [get_instance] returned the object, and [reset], which raises
    outside a testing environment, left it in place. *)
Theorem singleton_instance_is_permanent
    {Config AppInfo : Type}
    (construct : AppInfo -> Config -> py_exception + recipe)
    (cs : list (@static_call Config AppInfo))
    (st : class_state) (r : recipe) :
  instance st = Some r ->
  let results := fst (run_calls construct cs st) in
  let st' := snd (run_calls construct cs st) in
  instance st' = Some r /\
  environ st' = environ st /\
  Forall2
    (fun c res =>
       match c with
       | CallInit _ _ => res = Raised already_initialised
       | CallGetInstance => res = Returned (Some r)
       | CallReset => res = Raised not_testing \/ res = Returned None
       end)
    cs results.
Proof.
  revert st. induction cs as [|c cs IH]; intros st Hinst; cbv zeta.
  - simpl. auto.
  - cbn [run_calls].
    destruct (run_call construct c st) as [res st1] eqn:Hc.
    assert (H1 : instance st1 = Some r /\ environ st1 = environ st /\
                 match c with
                 | CallInit _ _ => res = Raised already_initialised
                 | CallGetInstance => res = Returned (Some r)
                 | CallReset => res = Raised not_testing \/ res = Returned None
                 end).
    { destruct c as [config app_info| |]; cbn [run_call] in Hc.
      - unfold init in Hc. rewrite Hinst in Hc.
        injection Hc as <- <-. auto.
      - unfold get_instance in Hc. rewrite Hinst in Hc.
        injection Hc as <- <-. auto.
      - unfold reset in Hc.
        destruct (match environ st "SUPERTOKENS_ENV" with
                  | Some v => negb (String.eqb v "testing")
                  | None => true
                  end); injection Hc as <- <-; auto. }
    destruct H1 as (Hi1 & He1 & Hres).
    specialize (IH st1 Hi1). cbv zeta in IH.
    destruct (run_calls construct cs st1) as [results st2].
    cbn [fst snd] in *. destruct IH as (Hi2 & He2 & Hall).
    split; [exact Hi2|]. split; [congruence|].
    constructor; assumption.
Qed.

End RecipeFacts.

Lemma singleton_instance_is_permanent_witness :
  let construct := fun (_ _ : unit) =>
    inr RecipeSample.recipe : ThirdPartyEmailPassword.py_exception + _ in
  let calls := [ThirdPartyEmailPassword.CallReset;
                ThirdPartyEmailPassword.CallInit tt tt;
                ThirdPartyEmailPassword.CallGetInstance] in
  fst (ThirdPartyEmailPassword.run_calls construct calls
         RecipeSample.initialised)
  = [ThirdPartyEmailPassword.Returned None;
     ThirdPartyEmailPassword.Raised ThirdPartyEmailPassword.already_initialised;
     ThirdPartyEmailPassword.Returned (Some RecipeSample.recipe)] /\
  ThirdPartyEmailPassword.instance
    (snd (ThirdPartyEmailPassword.run_calls construct calls
            RecipeSample.initialised))
  = Some RecipeSample.recipe.
Proof.
  cbv zeta. split; [reflexivity|].
  exact (proj1 (singleton_instance_is_permanent
                  (fun (_ _ : unit) => inr RecipeSample.recipe)
                  [ThirdPartyEmailPassword.CallReset;
                   ThirdPartyEmailPassword.CallInit tt tt;
                   ThirdPartyEmailPassword.CallGetInstance]
                  RecipeSample.initialised RecipeSample.recipe eq_refl)).
Defined.
